(** * pyAMPS: the spherical-harmonic evaluation engine of [AMPS.py]

    A shallow embedding of class [AMPS] and a verification of its
    specification.

    Numbers.  The program computes with numpy float arrays.  The embedding
    is generic in the number type: class [Numeric] lists the operations the
    source applies to a float (literals, promotion of an int, the four
    operations, unary minus, [**], [np.cos], [np.sin], [np.pi], the
    comparisons).  Results that only depend on how the arrays are routed are
    proved for every interpretation, IEEE doubles included.  Results that
    compare two differently associated formulas assume the laws of exact
    arithmetic, which is what "to floating-point tolerance" abstracts.

    Arrays.  A 1-d array and a column vector of shape (p,1) are a [list F];
    a matrix of shape (p,k) is the list of its p rows; a (1,k) row such as
    [m_P] is a [list].  A numpy operation that raises (shape mismatch, index
    out of range, missing dictionary key, failed assertion) returns [None].
    Elementwise operations on matrices require the shapes the source
    intends; 1-d arrays combine under numpy's broadcasting rule.  Three
    corners of numpy are outside the model: the column count of a matrix
    without rows; the extra axis [squeeze] removes when a key list has a
    single key; the broadcasting of a single custom latitude against several
    local times (the model reports an error there).

    Collaborators.  [get_model_vectors], [get_legendre] and [equalAreaGrid]
    are imported by [AMPS.py] from other modules; they are parameters,
    gathered in class [Collaborators]. *)

From Stdlib Require Import List ZArith QArith Qcanon Qround Bool Lia Ring.
Import ListNotations.

Set Implicit Arguments.

Close Scope Qc_scope.
Close Scope Q_scope.

(** ** Numbers *)

Class Numeric (F : Type) : Type := {
  lit  : Q -> F;            (* a float literal: 89.99, 1e-7, 6371.2 *)
  of_Z : Z -> F;            (* a Python int used in float arithmetic *)
  fadd : F -> F -> F;
  fsub : F -> F -> F;
  fmul : F -> F -> F;
  fdiv : F -> F -> F;       (* true division, [from __future__ import division] *)
  fneg : F -> F;
  fpow : F -> F -> F;       (* [**] *)
  fcos : F -> F;
  fsin : F -> F;
  fpi  : F;                 (* np.pi *)
  fle  : F -> F -> bool;    (* [<=]; [a >= b] is [fle b a] *)
  flt  : F -> F -> bool     (* [<] *)
}.

(** ** The error monad: [None] is a raised exception *)

Definition bind {A B : Type} (m : option A) (k : A -> option B) : option B :=
  match m with
  | Some a => k a
  | None => None
  end.

Notation "x <- m ;; k" := (bind m (fun x => k))
  (at level 61, m at next level, right associativity).
Notation "' p <- m ;; k" := (bind m (fun p => k))
  (at level 61, p pattern, m at next level, right associativity).

Fixpoint mapM {A B : Type} (f : A -> option B) (l : list A) : option (list B) :=
  match l with
  | [] => Some []
  | a :: l' => b <- f a ;; r <- mapM f l' ;; Some (b :: r)
  end.

(** [zipM f u v]: pointwise combination of two sequences of one length. *)
Fixpoint zipM {A B C : Type} (f : A -> B -> option C)
         (u : list A) (v : list B) : option (list C) :=
  match u, v with
  | [], [] => Some []
  | a :: u', b :: v' => c <- f a b ;; r <- zipM f u' v' ;; Some (c :: r)
  | _, _ => None
  end.

Definition key : Type := (Z * Z)%type.

Section Arrays.

Context {F : Type} {num : Numeric F}.

Definition matrix : Type := list (list F).

(** (p,) op (p,), or (p,1) op (p,1). *)
Definition vop (f : F -> F -> F) (u v : list F) : option (list F) :=
  zipM (fun a b => Some (f a b)) u v.

(** Two 1-d arrays under numpy broadcasting: equal lengths, or one of
    length one. *)
Definition bcast (f : F -> F -> F) (u v : list F) : option (list F) :=
  if Nat.eqb (length u) (length v) then vop f u v
  else match u, v with
       | _, [b] => Some (map (fun a => f a b) u)
       | [a], _ => Some (map (fun b => f a b) v)
       | _, _ => None
       end.

(** (p,k) op (p,k). *)
Definition mop (f : F -> F -> F) (A B : matrix) : option matrix :=
  zipM (vop f) A B.

(** (1,k) op (p,k) and (p,k) op (1,k). *)
Definition row_op_l (f : F -> F -> F) (r : list F) (A : matrix) : option matrix :=
  mapM (fun row => vop f r row) A.
Definition row_op_r (f : F -> F -> F) (A : matrix) (r : list F) : option matrix :=
  mapM (fun row => vop f row r) A.

(** (p,k) op (p,1). *)
Definition col_op_r (f : F -> F -> F) (A : matrix) (v : list F) : option matrix :=
  zipM (fun row x => Some (map (fun a => f a x) row)) A v.

(** (1,k) op (p,1): the outer table of shape (p,k). *)
Definition outer (f : F -> F -> F) (r : list F) (v : list F) : matrix :=
  map (fun x => map (fun a => f a x) r) v.

Definition mmap (f : F -> F) (A : matrix) : matrix := map (map f) A.

(** [np.dot] of a (p,k) matrix and a (k,1) column: each row is accumulated
    from zero. *)
Definition dotv (row c : list F) : F :=
  fold_left (fun acc ab => fadd acc (fmul (fst ab) (snd ab))) (combine row c) (of_Z 0).

Definition dot (A : matrix) (c : list F) : option (list F) :=
  mapM (fun row => if Nat.eqb (length row) (length c)
                   then Some (dotv row c) else None) A.

(** [np.hstack] of two matrices with the same number of rows. *)
Definition hstack (A B : matrix) : option matrix :=
  zipM (fun a b => Some (a ++ b)) A B.

(** [np.split(x, 2)]: raises unless the length is even. *)
Definition split2 (x : list F) : option (list F * list F) :=
  if Nat.even (length x)
  then Some (firstn (Nat.div2 (length x)) x, skipn (Nat.div2 (length x)) x)
  else None.

(** [np.reshape(x, (r, c))]. *)
Fixpoint chunks (r c : nat) (x : list F) : matrix :=
  match r with
  | O => []
  | S r' => firstn c x :: chunks r' c (skipn c x)
  end.

Definition reshape (x : list F) (r c : Z) : option matrix :=
  if ((r <? 0) || (c <? 0))%Z then None
  else if Nat.eqb (length x) (Z.to_nat r * Z.to_nat c)
       then Some (chunks (Z.to_nat r) (Z.to_nat c) x) else None.

(** [x.min()] and [x.max()]: raise on an empty array. *)
Definition fmin (a b : F) : F := if flt b a then b else a.
Definition fmax (a b : F) : F := if flt a b then b else a.
Definition amin (x : list F) : option F :=
  match x with [] => None | a :: r => Some (fold_left fmin r a) end.
Definition amax (x : list F) : option F :=
  match x with [] => None | a :: r => Some (fold_left fmax r a) end.

(** [x[mask]] with a boolean mask: the lengths must agree. *)
Fixpoint select (mask : list bool) (x : list F) : option (list F) :=
  match mask, x with
  | [], [] => Some []
  | b :: mask', a :: x' =>
      r <- select mask' x' ;; Some (if b then a :: r else r)
  | _, _ => None
  end.

(** [np.linspace(start, stop, num)], end point included: [num] samples
    [i * step + start] with the last one set to [stop]. *)
Definition linspace (start stop : F) (num : Z) : option (list F) :=
  if (num <? 0)%Z then None
  else
    let delta := fsub stop start in
    match Z.to_nat num with
    | O => Some []
    | S O => Some [fadd (fmul (of_Z 0) delta) start]
    | S d =>
        let step := fdiv delta (of_Z (Z.of_nat d)) in
        Some (map (fun i => fadd (fmul (of_Z (Z.of_nat i)) step) start) (seq 0 d)
              ++ [stop])
    end.

(** [map(np.ravel, np.meshgrid(x, y))]: both tables have shape
    (len y, len x) and are read row by row. *)
Definition meshgrid_ravel (x y : list F) : list F * list F :=
  (flat_map (fun _ => x) y, flat_map (fun yi => map (fun _ => yi) x) y).

(** [np.array([table[key] for key in keys]).squeeze().T]: one column per key,
    returned as rows.  Raises on a missing key and on ragged columns. *)
Definition transpose_cols (cols : matrix) : option matrix :=
  let p := length (hd [] cols) in
  if forallb (fun c => Nat.eqb (length c) p) cols
  then Some (map (fun i => map (fun c => nth i c (of_Z 0)) cols) (seq 0 p))
  else None.

Definition stack_keys (table : key -> option (list F)) (keys : list key)
  : option matrix :=
  cols <- mapM table keys ;; transpose_cols cols.

End Arrays.

(** ** The collaborators of [AMPS.py] *)

Class Collaborators (F : Type) : Type := {
  (* model_utils.get_model_vectors(v, By, Bz, tilt, F107):
     (tor_c, tor_s, pol_c, pol_s, pol_keys, tor_keys) *)
  get_model_vectors :
    F -> F -> F -> F -> F ->
    list F * list F * list F * list F * list key * list key;
  (* sh_utils.get_legendre(N, M, colat): two dictionaries keyed by (n, m),
     each value a column aligned with colat *)
  get_legendre :
    Z -> Z -> list F -> (key -> option (list F)) * (key -> option (list F));
  (* plot_utils.equalAreaGrid(dr, M0): (mlat, mlt, mltres) *)
  equalAreaGrid : F -> Z -> list F * list F * list F
}.

(** ** The object *)

Record AMPS (F : Type) : Type := mkAMPS {
  tor_c : list F;
  tor_s : list F;
  pol_c : list F;
  pol_s : list F;
  pol_keys : list key;
  tor_keys : list key;
  height : F;
  dr : F;
  M0 : Z;
  minlat : F;
  maxlat : F;
  keys_P : list key;
  keys_T : list key;
  m_P : list Z;
  m_T : list Z;
  n_P : list Z;
  n_T : list Z;
  N : Z;
  M : Z;
  vectorgrid : list F * list F;
  scalargrid : list F * list F;
  scalar_resolution : Z;
  pol_cosmphi_vector : list (list F);
  pol_cosmphi_scalar : list (list F);
  pol_sinmphi_vector : list (list F);
  pol_sinmphi_scalar : list (list F);
  tor_cosmphi_vector : list (list F);
  tor_cosmphi_scalar : list (list F);
  tor_sinmphi_vector : list (list F);
  tor_sinmphi_scalar : list (list F);
  coslambda_vector : list F;
  pol_P_vector : list (list F);
  pol_dP_vector : list (list F);
  pol_P_scalar : list (list F);
  pol_dP_scalar : list (list F);
  tor_P_vector : list (list F);
  tor_dP_vector : list (list F);
  tor_P_scalar : list (list F);
  tor_dP_scalar : list (list F)
}.

Section Engine.

Context {F : Type} {num : Numeric F} {ext : Collaborators F}.

(** MU0 = 4*np.pi*1e-7 and REFRE = 6371.2 *)
Definition MU0 : F := fmul (fmul (of_Z 4) fpi) (lit (1 # 10000000)).
Definition REFRE : F := lit (63712 # 10).

(** [np.array(keys).T[i][np.newaxis, :]]: indexing the transpose of an
    empty array raises. *)
Definition key_row (proj : key -> Z) (keys : list key) : option (list Z) :=
  match keys with
  | [] => None
  | _ => Some (map proj keys)
  end.

(** [np.max(x, axis = 1)] on one row. *)
Definition row_max (x : list Z) : option Z :=
  match x with
  | [] => None
  | a :: r => Some (fold_left Z.max r a)
  end.

(** Line 180: [np.max(np.hstack((np.array(a).T, np.array(b).T)), axis = 1)];
    [__init__] passes [tor_keys] for both [a] and [b]. *)
Definition highest_degree_order (a b : list key) : option (Z * Z) :=
  n <- row_max (map fst a ++ map fst b) ;;
  m <- row_max (map snd a ++ map snd b) ;;
  Some (n, m).

(** [_get_vectorgrid], called without keyword arguments. *)
Definition _get_vectorgrid (dr : F) (M0 : Z) (minlat maxlat : F)
  : option (list F * list F) :=
  let '(g0, g1, g2) := equalAreaGrid dr M0 in
  mlt <- bcast fadd g1 (map (fun w => fdiv w (lit 2)) g2) ;;
  a1 <- nth_error g0 1 ;;
  a0 <- nth_error g0 0 ;;
  let mlat := map (fun x => fadd x (fdiv (fsub a1 a0) (of_Z 2))) g0 in
  let mask := map (fun x => fle minlat x && fle x maxlat) mlat in
  mlt <- select mask mlt ;;
  mlat <- select mask mlat ;;
  Some (mlat ++ map fneg mlat, mlt ++ mlt).

(** [_get_scalargrid]; the assignment to [self.scalar_resolution] is made
    by the caller's record below. *)
Definition _get_scalargrid (minlat maxlat : F) (resolution : Z)
  : option (list F * list F) :=
  x <- linspace minlat maxlat resolution ;;
  y <- linspace (fneg (lit (1799 # 10))) (lit (1799 # 10)) resolution ;;
  let '(mlat, mlt) := meshgrid_ravel x y in
  let mlat := mlat ++ map fneg mlat in
  let mlt := map (fun t => fdiv (fmul t (of_Z 12)) (of_Z 180)) (mlt ++ mlt) in
  Some (mlat, map (fun t => fadd t (of_Z 12)) mlt).

(** [np.cos(m * grid[1] * mlt2r)] and the sine, with [mlt2r = np.pi/12]. *)
Definition azimuth_cached (f : F -> F) (m : list Z) (mlt : list F) : matrix :=
  let mlt2r := fdiv fpi (of_Z 12) in
  mmap (fun x => f (fmul x mlt2r)) (outer fmul (map of_Z m) mlt).

(** [90 - mlat] *)
Definition colat (mlat : list F) : list F := map (fun x => fsub (of_Z 90) x) mlat.

(** [np.cos(mlat * np.pi/180)] *)
Definition coslambda (mlat : list F) : list F :=
  map (fun x => fcos (fdiv (fmul x fpi) (of_Z 180))) mlat.

Definition calculate_matrices (s : AMPS F) : option (AMPS F) :=
  let pcv := azimuth_cached fcos (m_P s) (snd (vectorgrid s)) in
  let pcs := azimuth_cached fcos (m_P s) (snd (scalargrid s)) in
  let psv := azimuth_cached fsin (m_P s) (snd (vectorgrid s)) in
  let pss := azimuth_cached fsin (m_P s) (snd (scalargrid s)) in
  let tcv := azimuth_cached fcos (m_T s) (snd (vectorgrid s)) in
  let tcs := azimuth_cached fcos (m_T s) (snd (scalargrid s)) in
  let tsv := azimuth_cached fsin (m_T s) (snd (vectorgrid s)) in
  let tss := azimuth_cached fsin (m_T s) (snd (scalargrid s)) in
  let clv := coslambda (fst (vectorgrid s)) in
  let '(vector_P, vector_dP) := get_legendre (N s) (M s) (colat (fst (vectorgrid s))) in
  let '(scalar_P, scalar_dP) := get_legendre (N s) (M s) (colat (fst (scalargrid s))) in
  pPv <- stack_keys vector_P (keys_P s) ;;
  pdPv <- stack_keys vector_dP (keys_P s) ;;
  pPs <- stack_keys scalar_P (keys_P s) ;;
  pdPs <- stack_keys scalar_dP (keys_P s) ;;
  tPv <- stack_keys vector_P (keys_T s) ;;
  tdPv <- stack_keys vector_dP (keys_T s) ;;
  tPs <- stack_keys scalar_P (keys_T s) ;;
  tdPs <- stack_keys scalar_dP (keys_T s) ;;
  Some {|
    tor_c := tor_c s; tor_s := tor_s s; pol_c := pol_c s; pol_s := pol_s s;
    pol_keys := pol_keys s; tor_keys := tor_keys s;
    height := height s; dr := dr s; M0 := M0 s;
    minlat := minlat s; maxlat := maxlat s;
    keys_P := keys_P s; keys_T := keys_T s;
    m_P := m_P s; m_T := m_T s; n_P := n_P s; n_T := n_T s;
    N := N s; M := M s;
    vectorgrid := vectorgrid s; scalargrid := scalargrid s;
    scalar_resolution := scalar_resolution s;
    pol_cosmphi_vector := pcv; pol_cosmphi_scalar := pcs;
    pol_sinmphi_vector := psv; pol_sinmphi_scalar := pss;
    tor_cosmphi_vector := tcv; tor_cosmphi_scalar := tcs;
    tor_sinmphi_vector := tsv; tor_sinmphi_scalar := tss;
    coslambda_vector := clv;
    pol_P_vector := pPv; pol_dP_vector := mmap fneg pdPv;
    pol_P_scalar := pPs; pol_dP_scalar := mmap fneg pdPs;
    tor_P_vector := tPv; tor_dP_vector := mmap fneg tdPv;
    tor_P_scalar := tPs; tor_dP_scalar := mmap fneg tdPs
  |}.

Definition __init__ (v By Bz tilt F107 : F)
           (minlat maxlat height dr : F) (M0 resolution : Z) : option (AMPS F) :=
  let '(tc, ts, pc, ps, pk, tk) := get_model_vectors v By Bz tilt F107 in
  if negb (Nat.eqb (length ps) (length pc) && Nat.eqb (length ps) (length pc))
  then None
  else
    mP <- key_row snd pk ;;
    mT <- key_row snd tk ;;
    nP <- key_row fst pk ;;
    nT <- key_row fst tk ;;
    '(hN, hM) <- highest_degree_order tk tk ;;
    vg <- _get_vectorgrid dr M0 minlat maxlat ;;
    sg <- _get_scalargrid minlat maxlat resolution ;;
    calculate_matrices {|
      tor_c := tc; tor_s := ts; pol_c := pc; pol_s := ps;
      pol_keys := pk; tor_keys := tk;
      height := height; dr := dr; M0 := M0;
      minlat := minlat; maxlat := maxlat;
      keys_P := pk; keys_T := tk;
      m_P := mP; m_T := mT; n_P := nP; n_T := nT;
      N := hN; M := hM;
      vectorgrid := vg; scalargrid := sg;
      scalar_resolution := resolution;
      pol_cosmphi_vector := []; pol_cosmphi_scalar := [];
      pol_sinmphi_vector := []; pol_sinmphi_scalar := [];
      tor_cosmphi_vector := []; tor_cosmphi_scalar := [];
      tor_sinmphi_vector := []; tor_sinmphi_scalar := [];
      coslambda_vector := [];
      pol_P_vector := []; pol_dP_vector := [];
      pol_P_scalar := []; pol_dP_scalar := [];
      tor_P_vector := []; tor_dP_vector := [];
      tor_P_scalar := []; tor_dP_scalar := []
    |}.

Definition update_model (s : AMPS F) (v By Bz tilt F107 : F) : AMPS F :=
  let '(tc, ts, pc, ps, pk, tk) := get_model_vectors v By Bz tilt F107 in
  {|
    tor_c := tc; tor_s := ts; pol_c := pc; pol_s := ps;
    pol_keys := pk; tor_keys := tk;
    height := height s; dr := dr s; M0 := M0 s;
    minlat := minlat s; maxlat := maxlat s;
    keys_P := keys_P s; keys_T := keys_T s;
    m_P := m_P s; m_T := m_T s; n_P := n_P s; n_T := n_T s;
    N := N s; M := M s;
    vectorgrid := vectorgrid s; scalargrid := scalargrid s;
    scalar_resolution := scalar_resolution s;
    pol_cosmphi_vector := pol_cosmphi_vector s;
    pol_cosmphi_scalar := pol_cosmphi_scalar s;
    pol_sinmphi_vector := pol_sinmphi_vector s;
    pol_sinmphi_scalar := pol_sinmphi_scalar s;
    tor_cosmphi_vector := tor_cosmphi_vector s;
    tor_cosmphi_scalar := tor_cosmphi_scalar s;
    tor_sinmphi_vector := tor_sinmphi_vector s;
    tor_sinmphi_scalar := tor_sinmphi_scalar s;
    coslambda_vector := coslambda_vector s;
    pol_P_vector := pol_P_vector s; pol_dP_vector := pol_dP_vector s;
    pol_P_scalar := pol_P_scalar s; pol_dP_scalar := pol_dP_scalar s;
    tor_P_vector := tor_P_vector s; tor_dP_vector := tor_dP_vector s;
    tor_P_scalar := tor_P_scalar s; tor_dP_scalar := tor_dP_scalar s
  |}.

End Engine.

(** ** The evaluators *)

Section Evaluators.

Context {F : Type} {num : Numeric F} {ext : Collaborators F}.

(** [np.cos(m * mlt * np.pi/12)] of the custom-coordinate paths. *)
Definition azimuth_custom (f : F -> F) (m : list Z) (mlt : list F) : matrix :=
  mmap (fun x => f (fdiv (fmul x fpi) (of_Z 12))) (outer fmul (map of_Z m) mlt).

(** [np.dot(r * A * B, c)] with a (1,k) row [r]. *)
Definition dot_rAB (r : list F) (A B : matrix) (c : list F) : option (list F) :=
  X <- row_op_l fmul r A ;; Y <- mop fmul X B ;; dot Y c.

(** [np.dot(r * A * m * B, c)] with (1,k) rows [r] and [m]. *)
Definition dot_rAmB (r : list F) (A : matrix) (m : list F) (B : matrix)
           (c : list F) : option (list F) :=
  X <- row_op_l fmul r A ;; Y <- row_op_r fmul X m ;; Z <- mop fmul Y B ;; dot Z c.

(** [np.dot(A * m * B, c)] *)
Definition dot_AmB (A : matrix) (m : list F) (B : matrix) (c : list F)
  : option (list F) :=
  Y <- row_op_r fmul A m ;; Z <- mop fmul Y B ;; dot Z c.

(** [np.dot(A * B, c)] *)
Definition dot_AB (A B : matrix) (c : list F) : option (list F) :=
  Y <- mop fmul A B ;; dot Y c.

Definition get_upward_current (s : AMPS F) : option (matrix * matrix) :=
  let c := fdiv (fneg (lit (1 # 1000000))) (fmul MU0 (fadd REFRE (height s))) in
  let nn := map (fun n => of_Z (n * (n + 1))) (n_T s) in
  d1 <- dot_rAB nn (tor_P_scalar s) (tor_cosmphi_scalar s) (tor_c s) ;;
  d2 <- dot_rAB nn (tor_P_scalar s) (tor_sinmphi_scalar s) (tor_s s) ;;
  sm <- vop fadd d1 d2 ;;
  let Ju := map (fun x => fmul c x) sm in
  '(Ju_n, Ju_s) <- split2 Ju ;;
  a <- reshape Ju_n (scalar_resolution s) (scalar_resolution s) ;;
  b <- reshape Ju_s (scalar_resolution s) (scalar_resolution s) ;;
  Some (a, b).

(** The radial factor of [get_divergence_free_current]:
    (REFRE / (REFRE + height)) ** (n_P + 2.) * (2.*n_P + 1.)/n_P /MU0 * 1e-6 *)
Definition rtor_df (s : AMPS F) : list F :=
  map (fun n =>
         fmul (fdiv (fdiv (fmul (fpow (fdiv REFRE (fadd REFRE (height s)))
                                      (fadd (of_Z n) (lit 2)))
                                (fadd (fmul (lit 2) (of_Z n)) (lit 1)))
                          (of_Z n))
                    MU0)
              (lit (1 # 1000000)))
      (n_P s).

Definition get_divergence_free_current (s : AMPS F) (mlat mlt : option (list F))
  : option (list F * list F) :=
  let rtor := rtor_df s in
  match mlat, mlt with
  | Some mlat, Some mlt =>
      let '(tP, tdP) := get_legendre (N s) (M s) (colat mlat) in
      P <- stack_keys tP (keys_P s) ;;
      dP0 <- stack_keys tdP (keys_P s) ;;
      let dP := mmap fneg dP0 in
      let cosmphi := azimuth_custom fcos (m_P s) mlt in
      let sinmphi := azimuth_custom fsin (m_P s) mlt in
      let cosl := coslambda mlat in
      e1 <- dot_rAB rtor dP cosmphi (pol_c s) ;;
      e2 <- dot_rAB rtor dP sinmphi (pol_s s) ;;
      east <- vop fadd e1 e2 ;;
      n1 <- dot_rAmB rtor P (map of_Z (m_P s)) cosmphi (pol_s s) ;;
      n2 <- dot_rAmB rtor P (map of_Z (m_P s)) sinmphi (pol_c s) ;;
      n <- vop fadd (map fneg n1) n2 ;;
      north <- vop fdiv n cosl ;;
      Some (east, north)
  | _, _ =>
      e1 <- dot_rAB rtor (pol_dP_vector s) (pol_cosmphi_vector s) (pol_c s) ;;
      e2 <- dot_rAB rtor (pol_dP_vector s) (pol_sinmphi_vector s) (pol_s s) ;;
      east <- vop fadd e1 e2 ;;
      n1 <- dot_rAmB rtor (pol_P_vector s) (map of_Z (m_P s))
                     (pol_cosmphi_vector s) (pol_s s) ;;
      n2 <- dot_rAmB rtor (pol_P_vector s) (map of_Z (m_P s))
                     (pol_sinmphi_vector s) (pol_c s) ;;
      n <- vop fsub n1 n2 ;;
      north <- vop fdiv (map fneg n) (coslambda_vector s) ;;
      Some (east, north)
  end.

(** rtor = -1.e-6/MU0 *)
Definition rtor_cf : F := fdiv (fneg (lit (1 # 1000000))) MU0.

Definition get_curl_free_current (s : AMPS F) (mlat mlt : option (list F))
  : option (list F * list F) :=
  let rtor := rtor_cf in
  match mlat, mlt with
  | Some mlat, Some mlt =>
      let '(tP, tdP) := get_legendre (N s) (M s) (colat mlat) in
      P <- stack_keys tP (keys_T s) ;;
      dP0 <- stack_keys tdP (keys_T s) ;;
      let dP := mmap fneg dP0 in
      let cosmphi := azimuth_custom fcos (m_T s) mlt in
      let sinmphi := azimuth_custom fsin (m_T s) mlt in
      let cosl := coslambda mlat in
      e1 <- dot_AmB (mmap (fmul rtor) P) (map of_Z (m_T s)) cosmphi (tor_s s) ;;
      e2 <- dot_AmB (mmap (fmul rtor) P) (map of_Z (m_T s)) sinmphi (tor_c s) ;;
      e <- vop fsub e1 e2 ;;
      east <- vop fdiv e cosl ;;
      n1 <- dot_AB (mmap (fmul rtor) dP) cosmphi (tor_c s) ;;
      n2 <- dot_AB (mmap (fmul rtor) dP) sinmphi (tor_s s) ;;
      north <- vop fadd n1 n2 ;;
      Some (east, north)
  | _, _ =>
      e1 <- dot_AmB (tor_P_vector s) (map of_Z (m_T s))
                    (tor_cosmphi_vector s) (tor_s s) ;;
      e2 <- dot_AmB (tor_P_vector s) (map of_Z (m_T s))
                    (tor_sinmphi_vector s) (tor_c s) ;;
      e <- vop fsub e1 e2 ;;
      east <- vop fdiv (map (fun x => fmul rtor x) e) (coslambda_vector s) ;;
      n1 <- dot_AB (tor_dP_vector s) (tor_cosmphi_vector s) (tor_c s) ;;
      n2 <- dot_AB (tor_dP_vector s) (tor_sinmphi_vector s) (tor_s s) ;;
      n <- vop fadd n1 n2 ;;
      Some (east, map (fun x => fmul rtor x) n)
  end.

(** [[x + y for x, y in zip(curl_free, divergence_free)]]: the two-element
    list is returned as a pair (east, north). *)
Definition get_total_current (s : AMPS F) (mlat mlt : option (list F))
  : option (list F * list F) :=
  '(ce, cn) <- get_curl_free_current s mlat mlt ;;
  '(de, dn) <- get_divergence_free_current s mlat mlt ;;
  east <- bcast fadd ce de ;;
  north <- bcast fadd cn dn ;;
  Some (east, north).

(** rr ** (2 * n + 1) * (n + 1.)/n, behind the sign [sgn] the caller writes
    in front of [rr]. *)
Definition ground_factor (sgn : F -> F) (s : AMPS F) : list F :=
  let rr := fdiv REFRE (fadd REFRE (height s)) in
  map (fun n => fdiv (fmul (sgn (fpow rr (of_Z (2 * n + 1))))
                           (fadd (of_Z n) (lit 1)))
                     (of_Z n))
      (n_P s).

Definition get_ground_perturbation (s : AMPS F) (mlat mlt : list F)
  : option (list F * list F) :=
  let '(tP, tdP) := get_legendre (N s) (M s) (colat mlat) in
  P <- stack_keys tP (keys_P s) ;;
  dP <- stack_keys tdP (keys_P s) ;;
  let cosmphi := azimuth_custom fcos (m_P s) mlt in
  let sinmphi := azimuth_custom fsin (m_P s) mlt in
  G_cn <- row_op_l fmul (ground_factor fneg s) dP ;;
  Gn1 <- mop fmul G_cn cosmphi ;;
  Gn2 <- mop fmul G_cn sinmphi ;;
  Gn <- hstack Gn1 Gn2 ;;
  G0 <- row_op_l fmul (ground_factor (fun x => x) s) P ;;
  G1 <- row_op_r fmul G0 (map of_Z (m_P s)) ;;
  G_ce <- col_op_r fdiv G1 (coslambda mlat) ;;
  Ge1 <- mop fmul (mmap fneg G_ce) sinmphi ;;
  Ge2 <- mop fmul G_ce cosmphi ;;
  Ge <- hstack Ge1 Ge2 ;;
  let model := pol_c s ++ pol_s s in
  dB_east <- dot Ge model ;;
  dB_north <- dot Gn model ;;
  Some (dB_east, dB_north).

Definition get_AE_indices (s : AMPS F) : option (F * F * F * F) :=
  G_cn <- row_op_l fmul (ground_factor (fun x => x) s) (pol_dP_scalar s) ;;
  Gn1 <- mop fmul G_cn (pol_cosmphi_scalar s) ;;
  Gn2 <- mop fmul G_cn (pol_sinmphi_scalar s) ;;
  Gn <- hstack Gn1 Gn2 ;;
  Bn <- dot Gn (pol_c s ++ pol_s s) ;;
  '(Bn_n, Bn_s) <- split2 Bn ;;
  AL_n <- amin Bn_n ;;
  AL_s <- amin Bn_s ;;
  AU_n <- amax Bn_n ;;
  AU_s <- amax Bn_s ;;
  Some (AL_n, AL_s, AU_n, AU_s).

(** The basis cache agrees with the grids and the key structure it was
    computed from: recomputing it changes nothing. *)
Definition cache_valid (s : AMPS F) : Prop := calculate_matrices s = Some s.

(** A grid whose second half mirrors its first. *)
Definition mirrored (g : list F * list F) : Prop :=
  exists k : nat,
    length (fst g) = 2 * k /\ length (snd g) = 2 * k /\
    forall (i : nat) (d : F), i < k ->
      nth (k + i) (fst g) d = fneg (nth i (fst g) d) /\
      nth (k + i) (snd g) d = nth i (snd g) d.

(** The shape of a matrix: [r] rows of [c] entries. *)
Definition has_shape (A : list (list F)) (r c : nat) : Prop :=
  length A = r /\ Forall (fun row => length row = c) A.

(** The object with its two key references replaced and nothing else. *)
Definition set_key_refs (s : AMPS F) (pk tk : list key) : AMPS F :=
  {|
    tor_c := tor_c s; tor_s := tor_s s; pol_c := pol_c s; pol_s := pol_s s;
    pol_keys := pk; tor_keys := tk;
    height := height s; dr := dr s; M0 := M0 s;
    minlat := minlat s; maxlat := maxlat s;
    keys_P := keys_P s; keys_T := keys_T s;
    m_P := m_P s; m_T := m_T s; n_P := n_P s; n_T := n_T s;
    N := N s; M := M s;
    vectorgrid := vectorgrid s; scalargrid := scalargrid s;
    scalar_resolution := scalar_resolution s;
    pol_cosmphi_vector := pol_cosmphi_vector s;
    pol_cosmphi_scalar := pol_cosmphi_scalar s;
    pol_sinmphi_vector := pol_sinmphi_vector s;
    pol_sinmphi_scalar := pol_sinmphi_scalar s;
    tor_cosmphi_vector := tor_cosmphi_vector s;
    tor_cosmphi_scalar := tor_cosmphi_scalar s;
    tor_sinmphi_vector := tor_sinmphi_vector s;
    tor_sinmphi_scalar := tor_sinmphi_scalar s;
    coslambda_vector := coslambda_vector s;
    pol_P_vector := pol_P_vector s; pol_dP_vector := pol_dP_vector s;
    pol_P_scalar := pol_P_scalar s; pol_dP_scalar := pol_dP_scalar s;
    tor_P_vector := tor_P_vector s; tor_dP_vector := tor_dP_vector s;
    tor_P_scalar := tor_P_scalar s; tor_dP_scalar := tor_dP_scalar s
  |}.

(** The number of points an evaluation is made at. *)
Definition points (s : AMPS F) (mlat mlt : option (list F)) : nat :=
  match mlat, mlt with
  | Some _, Some b => length b
  | _, _ => length (snd (vectorgrid s))
  end.

(** The componentwise sum of two arrays of one length. *)
Definition vsum (u v : list F) : list F :=
  map (fun ab => fadd (fst ab) (snd ab)) (combine u v).

(** What [get_AE_indices] does with the northward component. *)
Definition envelopes (Bn : list F) : option (F * F * F * F) :=
  '(Bn_n, Bn_s) <- split2 Bn ;;
  AL_n <- amin Bn_n ;;
  AL_s <- amin Bn_s ;;
  AU_n <- amax Bn_n ;;
  AU_s <- amax Bn_s ;;
  Some (AL_n, AL_s, AU_n, AU_s).

(** The contracts of the collaborators: coefficient vectors as long as
    their key lists, Legendre columns aligned with the colatitudes. *)
Definition model_contract : Prop :=
  forall v By Bz tilt F107 : F,
    let '(tc, ts, pc, ps, pk, tk) := get_model_vectors v By Bz tilt F107 in
    length tc = length tk /\ length ts = length tk /\
    length pc = length pk /\ length ps = length pk.

Definition legendre_contract : Prop :=
  forall (hN hM : Z) (x : list F) (k : key) (col : list F),
    fst (get_legendre hN hM x) k = Some col \/
    snd (get_legendre hN hM x) k = Some col ->
    length col = length x.

(** The laws of exact arithmetic used to compare two formulas. *)
Record ExactLaws : Prop := {
  exact_ring : ring_theory (of_Z 0) (of_Z 1) fadd fmul fsub fneg (@eq F);
  exact_div : forall x y z : F, fdiv (fmul x y) z = fmul x (fdiv y z)
}.

(** The order laws used to bound the latitudes of a grid. *)
Record OrderLaws : Prop := {
  of_Z_nonneg : forall n : Z, (0 <= n)%Z -> fle (of_Z 0) (of_Z n) = true;
  of_Z_pos : forall n : Z, (0 < n)%Z -> flt (of_Z 0) (of_Z n) = true;
  lit_pos : forall x : Q, (0 < x)%Q -> flt (of_Z 0) (lit x) = true;
  of_Z_le_lit : forall (n : Z) (x : Q),
      (inject_Z n <= x)%Q -> fle (of_Z n) (lit x) = true;
  sub_nonneg : forall a b : F, fle a b = true -> fle (of_Z 0) (fsub b a) = true;
  div_nonneg : forall a b : F,
      fle (of_Z 0) a = true -> flt (of_Z 0) b = true ->
      fle (of_Z 0) (fdiv a b) = true;
  mul_nonneg : forall a b : F,
      fle (of_Z 0) a = true -> fle (of_Z 0) b = true ->
      fle (of_Z 0) (fmul a b) = true;
  add_nonneg_pos : forall a b : F,
      fle (of_Z 0) a = true -> flt (of_Z 0) b = true ->
      flt (of_Z 0) (fadd a b) = true
}.

(** ** The scalar maps and the integrated current *)

(** [map(_reshape, np.split(x, 2))]: north and south, each reshaped to
    (scalar_resolution, scalar_resolution). *)
Definition north_south (s : AMPS F) (x : list F)
  : option (list (list F) * list (list F)) :=
  '(x_n, x_s) <- split2 x ;;
  a <- reshape x_n (scalar_resolution s) (scalar_resolution s) ;;
  b <- reshape x_s (scalar_resolution s) (scalar_resolution s) ;;
  Some (a, b).

Definition get_toroidal_scalar (s : AMPS F)
  : option (list (list F) * list (list F)) :=
  d1 <- dot_AB (tor_P_scalar s) (tor_cosmphi_scalar s) (tor_c s) ;;
  d2 <- dot_AB (tor_P_scalar s) (tor_sinmphi_scalar s) (tor_s s) ;;
  T <- vop fadd d1 d2 ;;
  north_south s T.

Definition get_poloidal_scalar (s : AMPS F)
  : option (list (list F) * list (list F)) :=
  let rtor := map (fun n => fpow (fdiv REFRE (fadd REFRE (height s)))
                                 (of_Z (n + 1))) (n_P s) in
  d1 <- dot_rAB rtor (pol_P_scalar s) (pol_cosmphi_scalar s) (pol_c s) ;;
  d2 <- dot_rAB rtor (pol_P_scalar s) (pol_sinmphi_scalar s) (pol_s s) ;;
  sm <- vop fadd d1 d2 ;;
  north_south s (map (fun x => fmul REFRE x) sm).

Definition get_equivalent_current_function (s : AMPS F)
  : option (list (list F) * list (list F)) :=
  let rtor :=
    map (fun n => fdiv (fmul (fpow (fdiv REFRE (fadd REFRE (height s)))
                                   (fadd (of_Z n) (lit 1)))
                             (fadd (fmul (lit 2) (of_Z n)) (lit 1)))
                       (of_Z n))
        (n_P s) in
  d1 <- dot_rAB rtor (pol_P_scalar s) (pol_cosmphi_scalar s) (pol_c s) ;;
  d2 <- dot_rAB rtor (pol_P_scalar s) (pol_sinmphi_scalar s) (pol_s s) ;;
  sm <- vop fadd d1 d2 ;;
  north_south s
    (map (fun x => fmul (fmul (fdiv (fneg REFRE) MU0) x) (lit (1 # 1000000000)))
         sm).

Definition get_equivalent_current_laplacian (s : AMPS F)
  : option (list (list F) * list (list F)) :=
  let r :=
    map (fun n => fmul (of_Z ((n + 1) * (2 * n + 1)))
                       (fpow (fdiv REFRE (fadd REFRE (height s)))
                             (of_Z (n + 2))))
        (n_P s) in
  d1 <- dot_rAB r (pol_P_scalar s) (pol_cosmphi_scalar s) (pol_c s) ;;
  d2 <- dot_rAB r (pol_P_scalar s) (pol_sinmphi_scalar s) (pol_s s) ;;
  sm <- vop fadd d1 d2 ;;
  let c := fdiv (lit (1 # 1000000)) (fmul MU0 (fadd REFRE (height s))) in
  north_south s (map (fun x => fmul c x) sm).

Definition get_curl_free_current_potential (s : AMPS F)
  : option (list (list F) * list (list F)) :=
  d1 <- dot_AB (tor_P_scalar s) (tor_cosmphi_scalar s) (tor_c s) ;;
  d2 <- dot_AB (tor_P_scalar s) (tor_sinmphi_scalar s) (tor_s s) ;;
  sm <- vop fadd d1 d2 ;;
  north_south s
    (map (fun x => fmul (fmul (fdiv (fneg (fadd REFRE (height s))) MU0) x)
                        (lit (1 # 1000000000)))
         sm).

(** [np.sum]: accumulated from zero. *)
Definition asum (x : list F) : F := fold_left fadd x (of_Z 0).

(** [np.sum(J[J > 0])] and [np.sum(J[J < 0])] on a 2-d array. *)
Definition sum_positive (J : list (list F)) : option F :=
  x <- select (map (fun a => flt (of_Z 0) a) (concat J)) (concat J) ;;
  Some (asum x).
Definition sum_negative (J : list (list F)) : option F :=
  x <- select (map (fun a => flt a (of_Z 0)) (concat J)) (concat J) ;;
  Some (asum x).

(** The first part of [get_integrated_upward_current]: the current through
    each cell of the scalar grid, north and south (J_n and J_s). *)
Definition cell_currents (s : AMPS F)
  : option (list (list F) * list (list F)) :=
  '(jun0, jus0) <- get_upward_current s ;;
  let jun := mmap (fun x => fmul x (lit (1 # 1000000))) jun0 in
  let jus := mmap (fun x => fmul x (lit (1 # 1000000))) jus0 in
  '(mlat0, _) <- split2 (fst (scalargrid s)) ;;
  '(mlt0, _) <- split2 (snd (scalargrid s)) ;;
  mlat <- reshape mlat0 (scalar_resolution s) (scalar_resolution s) ;;
  mlt <- reshape mlt0 (scalar_resolution s) (scalar_resolution s) ;;
  r1 <- nth_error mlt 1 ;;
  r0 <- nth_error mlt 0 ;;
  dr <- vop fsub r1 r0 ;;
  x <- nth_error dr 0 ;;
  let mltres := fdiv (fmul x fpi) (of_Z 12) in
  c1 <- mapM (fun row => nth_error row 1) mlat ;;
  c0 <- mapM (fun row => nth_error row 0) mlat ;;
  dc <- vop fsub c1 c0 ;;
  y <- nth_error dc 0 ;;
  let mlatres := fdiv (fmul y fpi) (of_Z 180) in
  let R := fmul (fadd REFRE (height s)) (lit 1000) in
  let dS :=
    mmap (fun a => fmul (fmul (fmul (fpow R (of_Z 2))
                                    (fcos (fdiv (fmul a fpi) (of_Z 180))))
                              mlatres)
                        mltres)
         mlat in
  Jn0 <- mop fmul dS jun ;;
  Js0 <- mop fmul dS jus ;;
  Some (mmap (fun a => fmul a (lit (1 # 1000000))) Jn0,
        mmap (fun a => fmul a (lit (1 # 1000000))) Js0).

Definition get_integrated_upward_current (s : AMPS F)
  : option (F * F * F * F) :=
  '(J_n, J_s) <- cell_currents s ;;
  u_n <- sum_positive J_n ;;
  d_n <- sum_negative J_n ;;
  u_s <- sum_positive J_s ;;
  d_s <- sum_negative J_s ;;
  Some (u_n, d_n, u_s, d_s).

(** A sequence of [update_model] calls. *)
Definition update_all (s : AMPS F) (ds : list (F * F * F * F * F)) : AMPS F :=
  fold_left (fun t d => let '(v, By, Bz, tilt, F107) := d in
                        update_model t v By Bz tilt F107)
            ds s.

(** A pair of maps of the scalar grid's shape. *)
Definition map_pair (s : AMPS F)
           (r : option (list (list F) * list (list F))) : Prop :=
  exists a b : list (list F),
    r = Some (a, b) /\
    has_shape a (Z.to_nat (scalar_resolution s)) (Z.to_nat (scalar_resolution s)) /\
    has_shape b (Z.to_nat (scalar_resolution s)) (Z.to_nat (scalar_resolution s)).

(** The sign laws of an ordered field: a number is not on both sides of
    zero, and one on neither side is zero. *)
Record SignLaws : Prop := {
  sign_asym : forall x : F, flt (of_Z 0) x = true -> flt x (of_Z 0) = false;
  sign_zero : forall x : F,
      flt (of_Z 0) x = false -> flt x (of_Z 0) = false -> x = of_Z 0
}.

End Evaluators.

(** ** An executable instance: exact rational arithmetic

    Canonical rationals interpret the numbers; they satisfy the laws of
    exact arithmetic.  The transcendental functions and the collaborators
    are small rational stand-ins, enough to run the engine on a grid. *)

Module Exact.

Definition q (x : Q) : Qc := Q2Qc x.
Definition z (x : Z) : Qc := Q2Qc (inject_Z x).

Definition Qc_leb (a b : Qc) : bool := Qle_bool (this a) (this b).
Definition Qc_ltb (a b : Qc) : bool := negb (Qle_bool (this b) (this a)).

#[export] Instance numeric : Numeric Qc := {|
  lit := q;
  of_Z := z;
  fadd := Qcplus;
  fsub := Qcminus;
  fmul := Qcmult;
  fdiv := Qcdiv;
  fneg := Qcopp;
  fpow := fun x y => Qcpower x (Z.to_nat (Qfloor (this y)));
  fcos := fun x => Qcminus (z 1) (Qcdiv (Qcmult x x) (z 2));
  fsin := fun x => x;
  fpi := q (355 # 113);
  fle := Qc_leb;
  flt := Qc_ltb
|}.

(** Legendre stand-in: the keys (n, m) with 1 <= n <= N and
    0 <= m <= min n M, each with a column aligned with [colat]. *)
Definition table (N M : Z) (f : Z -> Z -> Qc -> Qc) (colat : list Qc)
  : key -> option (list Qc) :=
  fun k =>
    let (n, m) := k in
    if ((1 <=? n) && (n <=? N) && (0 <=? m) && (m <=? n) && (m <=? M))%Z
    then Some (map (f n m) colat) else None.

Definition legendre (N M : Z) (colat : list Qc) :=
  (table N M (fun n m x => Qcplus (Qcmult (z n) x) (z m)) colat,
   table N M (fun n m x => Qcminus (z n) (Qcmult (z m) x)) colat).

(** A Legendre stand-in that serves every key, whatever N and M. *)
Definition legendre_any (N M : Z) (colat : list Qc) :=
  (fun k : key => Some (map (fun x => Qcplus (Qcmult (z (fst k)) x) (z (snd k))) colat),
   fun k : key => Some (map (fun x => Qcminus (z (fst k)) (Qcmult (z (snd k)) x)) colat)).

(** Equal-area stand-in: four cells, 5*dr degrees apart. *)
Definition area_grid (dr : Qc) (M0 : Z) : list Qc * list Qc * list Qc :=
  (map (fun i => Qcplus (z 50) (Qcmult (z i) (Qcmult (z 5) dr))) [0; 1; 2; 3]%Z,
   map z [0; 6; 12; 18]%Z,
   map (fun _ => z 6) [0; 1; 2; 3]%Z).

(** A well-formed coefficient model: three toroidal and two poloidal keys. *)
Definition regular : Collaborators Qc := {|
  get_model_vectors := fun v By Bz tilt F107 =>
    ([v; By; Bz], [Bz; tilt; v], [F107; v], [By; Bz],
     [(1, 0); (1, 1)]%Z, [(1, 0); (1, 1); (2, 1)]%Z);
  get_legendre := legendre;
  equalAreaGrid := area_grid
|}.

(** A coefficient model whose poloidal keys reach degree 3 and whose
    toroidal keys stop at degree 1. *)
Definition skewed (leg : Z -> Z -> list Qc ->
                         (key -> option (list Qc)) * (key -> option (list Qc)))
  : Collaborators Qc := {|
  get_model_vectors := fun v By Bz tilt F107 =>
    ([v; By], [Bz; tilt], [F107; v], [By; Bz],
     [(3, 0); (3, 1)]%Z, [(1, 0); (1, 1)]%Z);
  get_legendre := leg;
  equalAreaGrid := area_grid
|}.

(** A coefficient model with a short [tor_s], and a short [pol_s] as well
    when v is negative. *)
Definition ragged : Collaborators Qc := {|
  get_model_vectors := fun v By Bz tilt F107 =>
    ([v; By; Bz], [Bz; tilt], [F107; v],
     (if Qc_ltb v (z 0) then [By] else [By; Bz]),
     [(1, 0); (1, 1)]%Z, [(1, 0); (1, 1); (2, 1)]%Z);
  get_legendre := legendre;
  equalAreaGrid := area_grid
|}.

(** The engine on the regular model, at the default latitude band and
    resolution 4. *)
Definition engine (ext : Collaborators Qc) (v : Z) : option (AMPS Qc) :=
  __init__ (ext := ext) (z v) (z (-4)) (z (-3)) (z 20) (z 150)
           (z 60) (q (8999 # 100)) (z 110) (z 2) 4%Z 4%Z.

(** A coefficient model without poloidal keys. *)
Definition keyless : Collaborators Qc := {|
  get_model_vectors := fun v By Bz tilt F107 =>
    ([v; By; Bz], [Bz; tilt; v], [], [],
     [], [(1, 0); (1, 1); (2, 1)]%Z);
  get_legendre := legendre;
  equalAreaGrid := area_grid
|}.

(** The engine on the regular model at another resolution. *)
Definition engine_at (resolution : Z) : option (AMPS Qc) :=
  __init__ (ext := regular) (z 300) (z (-4)) (z (-3)) (z 20) (z 150)
           (z 60) (q (8999 # 100)) (z 110) (z 2) 4%Z resolution.

End Exact.

(** * Verification *)

(** ** The error monad and the array operations *)

Lemma bind_Some {A B : Type} (m : option A) (k : A -> option B) (b : B) :
  bind m k = Some b -> exists a, m = Some a /\ k a = Some b.
Proof.
  destruct m as [a|]; simpl; intros H; [exists a; auto | discriminate].
Qed.

(** Inversion of a chain of binds in a hypothesis. *)
Ltac inv_bind H :=
  repeat match type of H with
  | bind ?m ?k = Some _ =>
      let a := fresh "a" in
      let E := fresh "E" in
      destruct (bind_Some m k H) as [a [E H']]; clear H; rename H' into H;
      cbv beta in H
  end.

(** Reduction of the projections of the plain fields of a record. *)
Ltac fields :=
  cbn [N M vectorgrid scalargrid keys_P keys_T m_P m_T tor_c tor_s pol_c pol_s
       pol_keys tor_keys height dr M0 minlat maxlat n_P n_T scalar_resolution].
Ltac fields_in_all :=
  cbn [N M vectorgrid scalargrid keys_P keys_T m_P m_T tor_c tor_s pol_c pol_s
       pol_keys tor_keys height dr M0 minlat maxlat n_P n_T scalar_resolution]
    in *.

Lemma mapM_length {A B : Type} (f : A -> option B) (l : list A) (r : list B) :
  mapM f l = Some r -> length r = length l.
Proof.
  revert r; induction l as [|a l IH]; simpl; intros r H.
  - injection H as <-; reflexivity.
  - destruct (f a) as [b|]; simpl in H; [|discriminate].
    destruct (mapM f l) as [r'|]; simpl in H; [|discriminate].
    injection H as <-; simpl; f_equal; auto.
Qed.

Lemma mapM_ext {A B : Type} (f g : A -> option B) (l : list A) :
  (forall a, In a l -> f a = g a) -> mapM f l = mapM g l.
Proof.
  induction l as [|a l IH]; simpl; intros H; [reflexivity|].
  rewrite (H a (or_introl eq_refl)), IH; auto.
Qed.

Lemma mapM_Forall {A B : Type} (P : B -> Prop) (f : A -> option B)
      (l : list A) (r : list B) :
  (forall a b, f a = Some b -> P b) -> mapM f l = Some r -> Forall P r.
Proof.
  intros Hf; revert r; induction l as [|a l IH]; simpl; intros r H.
  - injection H as <-; constructor.
  - destruct (f a) as [b|] eqn:E; simpl in H; [|discriminate].
    destruct (mapM f l) as [r'|]; simpl in H; [|discriminate].
    injection H as <-; constructor; eauto.
Qed.

Lemma zipM_length {A B C : Type} (f : A -> B -> option C)
      (u : list A) (v : list B) (r : list C) :
  zipM f u v = Some r -> length r = length u /\ length u = length v.
Proof.
  revert v r; induction u as [|a u IH]; intros [|b v] r H; simpl in H;
    try discriminate.
  - injection H as <-; auto.
  - destruct (f a b) as [c|]; simpl in H; [|discriminate].
    destruct (zipM f u v) as [r'|] eqn:E; simpl in H; [|discriminate].
    injection H as <-; destruct (IH _ _ E); simpl; split; congruence.
Qed.

Lemma zipM_total {A B C : Type} (f : A -> B -> C) (u : list A) (v : list B) :
  length u = length v ->
  zipM (fun a b => Some (f a b)) u v =
  Some (map (fun ab => f (fst ab) (snd ab)) (combine u v)).
Proof.
  revert v; induction u as [|a u IH]; intros [|b v] H; simpl in *;
    try discriminate; [reflexivity|].
  rewrite IH by congruence; reflexivity.
Qed.

Section ArrayFacts.

Context {F : Type} {num : Numeric F}.

Lemma vop_length (f : F -> F -> F) (u v w : list F) :
  vop f u v = Some w -> length w = length u /\ length u = length v.
Proof. apply zipM_length. Qed.

Lemma mop_length (f : F -> F -> F) (A B C : list (list F)) :
  mop f A B = Some C -> length C = length A /\ length A = length B.
Proof. apply zipM_length. Qed.

Lemma row_op_l_length (f : F -> F -> F) (r : list F) (A C : list (list F)) :
  row_op_l f r A = Some C -> length C = length A.
Proof. apply mapM_length. Qed.

Lemma row_op_r_length (f : F -> F -> F) (r : list F) (A C : list (list F)) :
  row_op_r f A r = Some C -> length C = length A.
Proof. apply mapM_length. Qed.

Lemma dot_length (A : list (list F)) (c d : list F) :
  dot A c = Some d -> length d = length A.
Proof. apply mapM_length. Qed.

Lemma mmap_length (f : F -> F) (A : list (list F)) :
  length (mmap f A) = length A.
Proof. apply length_map. Qed.

Lemma outer_length (f : F -> F -> F) (r v : list F) :
  length (outer f r v) = length v.
Proof. apply length_map. Qed.

Lemma select_length (mask : list bool) (x r : list F) :
  select mask x = Some r -> length r = length (filter (fun b => b) mask).
Proof.
  revert x r; induction mask as [|b mask IH]; intros [|a x] r H; simpl in H;
    try discriminate.
  - injection H as <-; reflexivity.
  - destruct (select mask x) as [r'|] eqn:E; simpl in H; [|discriminate].
    injection H as <-. specialize (IH _ _ E).
    destruct b; simpl; congruence.
Qed.

Lemma meshgrid_ravel_length (x y : list F) :
  length (fst (meshgrid_ravel x y)) = length (snd (meshgrid_ravel x y)).
Proof.
  unfold meshgrid_ravel; simpl.
  induction y as [|a y IH]; simpl; [reflexivity|].
  rewrite !length_app, length_map, IH; reflexivity.
Qed.

(** Appending the negated latitudes and the repeated local times gives a
    mirrored grid. *)
Lemma mirrored_app (a b : list F) :
  length a = length b -> mirrored (a ++ map fneg a, b ++ b).
Proof.
  intros H; exists (length a); simpl.
  rewrite !length_app, length_map, <- H.
  split; [lia|]; split; [lia|].
  intros i d Hi; split.
  - rewrite app_nth2_plus, app_nth1 by lia.
    rewrite (nth_indep (map fneg a) d (fneg d)) by (rewrite length_map; lia).
    apply map_nth.
  - rewrite H, app_nth2_plus, app_nth1 by lia; reflexivity.
Qed.

End ArrayFacts.

(** ** The grid builder *)

Section GridFacts.

Context {F : Type} {num : Numeric F} {ext : Collaborators F}.

Lemma vectorgrid_mirrored (dr : F) (M0 : Z) (minlat maxlat : F)
      (g : list F * list F) :
  _get_vectorgrid dr M0 minlat maxlat = Some g -> mirrored g.
Proof.
  unfold _get_vectorgrid.
  destruct (equalAreaGrid dr M0) as [[g0 g1] g2].
  intros H; inv_bind H. injection H as <-.
  apply mirrored_app.
  rewrite (select_length _ _ E3), (select_length _ _ E2); reflexivity.
Qed.

Lemma scalargrid_mirrored (minlat maxlat : F) (resolution : Z)
      (g : list F * list F) :
  _get_scalargrid minlat maxlat resolution = Some g -> mirrored g.
Proof.
  unfold _get_scalargrid.
  intros H; inv_bind H.
  pose proof (meshgrid_ravel_length a a0) as L.
  destruct (meshgrid_ravel a a0) as [mlat mlt]; simpl in L.
  injection H as <-.
  rewrite map_map, map_app.
  apply mirrored_app.
  rewrite length_map; exact L.
Qed.

(** C6. Every grid the builder returns, vector or scalar, has even length
    2k, and its point k + i has the negated latitude and the same local
    time as its point i. *)
Theorem grids_are_mirrored :
  (forall (dr : F) (M0 : Z) (minlat maxlat : F) (g : list F * list F),
      _get_vectorgrid dr M0 minlat maxlat = Some g -> mirrored g) /\
  (forall (minlat maxlat : F) (resolution : Z) (g : list F * list F),
      _get_scalargrid minlat maxlat resolution = Some g -> mirrored g).
Proof.
  split; [exact vectorgrid_mirrored | exact scalargrid_mirrored].
Qed.

End GridFacts.

(** ** The coefficient update and the basis cache *)

Section EngineFacts.

Context {F : Type} {num : Numeric F} {ext : Collaborators F}.

(** C5. [update_model] stores the six values the coefficient model returns
    and leaves the two grids and every cached basis array (the azimuthal
    cosine and sine matrices, the Legendre P and dP matrices, for both
    grids and both harmonic sets, and the cosine of the latitude) as they
    were. *)
Theorem update_model_keeps_grids_and_basis (s : AMPS F) (v By Bz tilt F107 : F) :
  let s' := update_model s v By Bz tilt F107 in
  (tor_c s', tor_s s', pol_c s', pol_s s', pol_keys s', tor_keys s')
    = get_model_vectors v By Bz tilt F107 /\
  vectorgrid s' = vectorgrid s /\
  scalargrid s' = scalargrid s /\
  pol_cosmphi_vector s' = pol_cosmphi_vector s /\
  pol_cosmphi_scalar s' = pol_cosmphi_scalar s /\
  pol_sinmphi_vector s' = pol_sinmphi_vector s /\
  pol_sinmphi_scalar s' = pol_sinmphi_scalar s /\
  tor_cosmphi_vector s' = tor_cosmphi_vector s /\
  tor_cosmphi_scalar s' = tor_cosmphi_scalar s /\
  tor_sinmphi_vector s' = tor_sinmphi_vector s /\
  tor_sinmphi_scalar s' = tor_sinmphi_scalar s /\
  coslambda_vector s' = coslambda_vector s /\
  pol_P_vector s' = pol_P_vector s /\
  pol_dP_vector s' = pol_dP_vector s /\
  pol_P_scalar s' = pol_P_scalar s /\
  pol_dP_scalar s' = pol_dP_scalar s /\
  tor_P_vector s' = tor_P_vector s /\
  tor_dP_vector s' = tor_dP_vector s /\
  tor_P_scalar s' = tor_P_scalar s /\
  tor_dP_scalar s' = tor_dP_scalar s.
Proof.
  unfold update_model.
  destruct (get_model_vectors v By Bz tilt F107) as [[[[[tc ts] pc] ps] pk] tk].
  simpl. repeat split.
Qed.

(** C9. [update_model] leaves keys_P, keys_T, m_P, m_T, n_P, n_T, N and M
    as they were, while pol_keys and tor_keys become whatever the
    coefficient model returned; and no evaluator depends on pol_keys or
    tor_keys: replacing the two references alone changes no result. *)
Theorem update_model_keeps_key_structure (s : AMPS F) (v By Bz tilt F107 : F) :
  let s' := update_model s v By Bz tilt F107 in
  (keys_P s' = keys_P s /\ keys_T s' = keys_T s /\
   m_P s' = m_P s /\ m_T s' = m_T s /\ n_P s' = n_P s /\ n_T s' = n_T s /\
   N s' = N s /\ M s' = M s) /\
  (pol_keys s' = snd (fst (get_model_vectors v By Bz tilt F107)) /\
   tor_keys s' = snd (get_model_vectors v By Bz tilt F107)) /\
  (forall (pk tk : list key) (mlat mlt : option (list F)) (a b : list F),
      get_upward_current (set_key_refs s' pk tk) = get_upward_current s' /\
      get_divergence_free_current (set_key_refs s' pk tk) mlat mlt
        = get_divergence_free_current s' mlat mlt /\
      get_curl_free_current (set_key_refs s' pk tk) mlat mlt
        = get_curl_free_current s' mlat mlt /\
      get_total_current (set_key_refs s' pk tk) mlat mlt
        = get_total_current s' mlat mlt /\
      get_ground_perturbation (set_key_refs s' pk tk) a b
        = get_ground_perturbation s' a b /\
      get_AE_indices (set_key_refs s' pk tk) = get_AE_indices s').
Proof.
  unfold update_model.
  destruct (get_model_vectors v By Bz tilt F107) as [[[[[tc ts] pc] ps] pk] tk].
  split; [|split]; [simpl; repeat split | simpl; split; reflexivity |].
  intros; repeat split.
Qed.


(** What a successful [calculate_matrices] stores. *)
Lemma cache_valid_fields (s : AMPS F) :
  cache_valid s ->
  let vleg := get_legendre (N s) (M s) (colat (fst (vectorgrid s))) in
  let sleg := get_legendre (N s) (M s) (colat (fst (scalargrid s))) in
  (pol_cosmphi_vector s = azimuth_cached fcos (m_P s) (snd (vectorgrid s)) /\
   pol_cosmphi_scalar s = azimuth_cached fcos (m_P s) (snd (scalargrid s)) /\
   pol_sinmphi_vector s = azimuth_cached fsin (m_P s) (snd (vectorgrid s)) /\
   pol_sinmphi_scalar s = azimuth_cached fsin (m_P s) (snd (scalargrid s)) /\
   tor_cosmphi_vector s = azimuth_cached fcos (m_T s) (snd (vectorgrid s)) /\
   tor_cosmphi_scalar s = azimuth_cached fcos (m_T s) (snd (scalargrid s)) /\
   tor_sinmphi_vector s = azimuth_cached fsin (m_T s) (snd (vectorgrid s)) /\
   tor_sinmphi_scalar s = azimuth_cached fsin (m_T s) (snd (scalargrid s)) /\
   coslambda_vector s = coslambda (fst (vectorgrid s))) /\
  (stack_keys (fst vleg) (keys_P s) = Some (pol_P_vector s) /\
   stack_keys (fst sleg) (keys_P s) = Some (pol_P_scalar s) /\
   stack_keys (fst vleg) (keys_T s) = Some (tor_P_vector s) /\
   stack_keys (fst sleg) (keys_T s) = Some (tor_P_scalar s)) /\
  (exists d1 d2 d3 d4 : list (list F),
      (stack_keys (snd vleg) (keys_P s) = Some d1 /\
       pol_dP_vector s = mmap fneg d1) /\
      (stack_keys (snd sleg) (keys_P s) = Some d2 /\
       pol_dP_scalar s = mmap fneg d2) /\
      (stack_keys (snd vleg) (keys_T s) = Some d3 /\
       tor_dP_vector s = mmap fneg d3) /\
      (stack_keys (snd sleg) (keys_T s) = Some d4 /\
       tor_dP_scalar s = mmap fneg d4)).
Proof.
  unfold cache_valid, calculate_matrices. intros H.
  destruct (get_legendre (N s) (M s) (colat (fst (vectorgrid s)))) as [vP vdP].
  destruct (get_legendre (N s) (M s) (colat (fst (scalargrid s)))) as [sP sdP].
  inv_bind H. injection H as H. simpl.
  split; [|split].
  - repeat split.
    + exact (eq_sym (f_equal (@pol_cosmphi_vector F) H)).
    + exact (eq_sym (f_equal (@pol_cosmphi_scalar F) H)).
    + exact (eq_sym (f_equal (@pol_sinmphi_vector F) H)).
    + exact (eq_sym (f_equal (@pol_sinmphi_scalar F) H)).
    + exact (eq_sym (f_equal (@tor_cosmphi_vector F) H)).
    + exact (eq_sym (f_equal (@tor_cosmphi_scalar F) H)).
    + exact (eq_sym (f_equal (@tor_sinmphi_vector F) H)).
    + exact (eq_sym (f_equal (@tor_sinmphi_scalar F) H)).
    + exact (eq_sym (f_equal (@coslambda_vector F) H)).
  - repeat split.
    + rewrite E; f_equal; exact (f_equal (@pol_P_vector F) H).
    + rewrite E1; f_equal; exact (f_equal (@pol_P_scalar F) H).
    + rewrite E3; f_equal; exact (f_equal (@tor_P_vector F) H).
    + rewrite E5; f_equal; exact (f_equal (@tor_P_scalar F) H).
  - exists a0, a2, a4, a6. repeat split; try assumption.
    + exact (eq_sym (f_equal (@pol_dP_vector F) H)).
    + exact (eq_sym (f_equal (@pol_dP_scalar F) H)).
    + exact (eq_sym (f_equal (@tor_dP_vector F) H)).
    + exact (eq_sym (f_equal (@tor_dP_scalar F) H)).
Qed.

(** Recomputing the cache right after computing it changes nothing. *)
Lemma calculate_matrices_valid (s s' : AMPS F) :
  calculate_matrices s = Some s' -> cache_valid s'.
Proof.
  unfold cache_valid, calculate_matrices. intros H.
  destruct (get_legendre (N s) (M s) (colat (fst (vectorgrid s)))) as [vP vdP] eqn:L1.
  destruct (get_legendre (N s) (M s) (colat (fst (scalargrid s)))) as [sP sdP] eqn:L2.
  inv_bind H. injection H as <-. simpl.
  rewrite L1, L2, E, E0, E1, E2, E3, E4, E5, E6. reflexivity.
Qed.

(** Construction ends with a valid cache. *)
Lemma init_cache_valid (v By Bz tilt F107 minlat maxlat height dr : F)
      (M0 resolution : Z) (s : AMPS F) :
  __init__ v By Bz tilt F107 minlat maxlat height dr M0 resolution = Some s ->
  cache_valid s.
Proof.
  unfold __init__.
  destruct (get_model_vectors v By Bz tilt F107) as [[[[[tc ts] pc] ps] pk] tk].
  destruct (negb _); [discriminate|].
  intros H; inv_bind H.
  destruct a3 as [hN hM]. inv_bind H.
  eapply calculate_matrices_valid; exact H.
Qed.

Lemma update_model_cache_valid (s : AMPS F) (v By Bz tilt F107 : F) :
  cache_valid s -> cache_valid (update_model s v By Bz tilt F107).
Proof.
  unfold cache_valid, update_model. intros H.
  destruct (get_model_vectors v By Bz tilt F107) as [[[[[tc ts] pc] ps] pk] tk].
  destruct s.
  unfold calculate_matrices in *.
  fields_in_all.
  destruct (get_legendre _ _ (colat (fst vectorgrid0))) as [vP vdP].
  destruct (get_legendre _ _ (colat (fst scalargrid0))) as [sP sdP].
  inv_bind H.
  rewrite E, E0, E1, E2, E3, E4, E5, E6.
  cbn [bind].
  injection H; intros; subst.
  reflexivity.
Qed.

End EngineFacts.

(** ** The horizontal currents *)

Section CurrentFacts.

Context {F : Type} {num : Numeric F} {ext : Collaborators F}.

Lemma azimuth_cached_length (f : F -> F) (m : list Z) (mlt : list F) :
  length (azimuth_cached f m mlt) = length mlt.
Proof. unfold azimuth_cached. rewrite mmap_length. apply outer_length. Qed.

Lemma azimuth_custom_length (f : F -> F) (m : list Z) (mlt : list F) :
  length (azimuth_custom f m mlt) = length mlt.
Proof. unfold azimuth_custom. rewrite mmap_length. apply outer_length. Qed.

(** Each product against a coefficient vector has one entry per row of the
    azimuthal matrix. *)
Lemma dot_AB_length (A B : list (list F)) (c d : list F) :
  dot_AB A B c = Some d -> length d = length B.
Proof.
  unfold dot_AB. intros H; inv_bind H.
  apply dot_length in H. apply mop_length in E. lia.
Qed.

Lemma dot_AmB_length (A B : list (list F)) (m c d : list F) :
  dot_AmB A m B c = Some d -> length d = length B.
Proof.
  unfold dot_AmB. intros H; inv_bind H.
  apply dot_length in H. apply mop_length in E0. lia.
Qed.

Lemma dot_rAB_length (r : list F) (A B : list (list F)) (c d : list F) :
  dot_rAB r A B c = Some d -> length d = length B.
Proof.
  unfold dot_rAB. intros H; inv_bind H.
  apply dot_length in H. apply mop_length in E0. lia.
Qed.

Lemma dot_rAmB_length (r : list F) (A B : list (list F)) (m c d : list F) :
  dot_rAmB r A m B c = Some d -> length d = length B.
Proof.
  unfold dot_rAmB. intros H; inv_bind H.
  apply dot_length in H. apply mop_length in E1. lia.
Qed.

Lemma divergence_free_lengths (s : AMPS F) (mlat mlt : option (list F))
      (e n : list F) :
  cache_valid s ->
  get_divergence_free_current s mlat mlt = Some (e, n) ->
  length e = points s mlat mlt /\ length n = points s mlat mlt.
Proof.
  intros Hv H.
  destruct (cache_valid_fields Hv) as [(C1 & _ & C3 & _) _].
  unfold get_divergence_free_current, points in *.
  destruct mlat as [mlat|], mlt as [mlt|];
    try (inv_bind H; injection H as <- <-;
         apply dot_rAB_length in E; apply dot_rAmB_length in E2;
         apply vop_length in E1, E4, E5;
         rewrite C1, azimuth_cached_length in E, E2;
         rewrite length_map in E5; lia).
  destruct (get_legendre _ _ _) as [tP tdP].
  inv_bind H; injection H as <- <-.
  apply dot_rAB_length in E1. apply dot_rAmB_length in E4.
  apply vop_length in E3, E6, E7.
  rewrite azimuth_custom_length in E1, E4.
  rewrite length_map in E6. lia.
Qed.

Lemma curl_free_lengths (s : AMPS F) (mlat mlt : option (list F))
      (e n : list F) :
  cache_valid s ->
  get_curl_free_current s mlat mlt = Some (e, n) ->
  length e = points s mlat mlt /\ length n = points s mlat mlt.
Proof.
  intros Hv H.
  destruct (cache_valid_fields Hv) as [(_ & _ & _ & _ & C1 & _) _].
  unfold get_curl_free_current, points in *.
  destruct mlat as [mlat|], mlt as [mlt|];
    try (inv_bind H; injection H as <- <-;
         apply dot_AmB_length in E; apply dot_AB_length in E3;
         apply vop_length in E1, E2, E5;
         rewrite C1, azimuth_cached_length in E, E3;
         rewrite length_map in *; lia).
  destruct (get_legendre _ _ _) as [tP tdP].
  inv_bind H; injection H as <- <-.
  apply dot_AmB_length in E1. apply dot_AB_length in E5.
  apply vop_length in E3, E4, E7.
  rewrite azimuth_custom_length in E1, E5. lia.
Qed.

Lemma bcast_same_length (f : F -> F -> F) (u v : list F) :
  length u = length v ->
  bcast f u v = Some (map (fun ab => f (fst ab) (snd ab)) (combine u v)).
Proof.
  intros H. unfold bcast, vop.
  rewrite H, Nat.eqb_refl. apply zipM_total; exact H.
Qed.


End CurrentFacts.

(** ** Cached grid against custom coordinates, under exact arithmetic *)

Lemma mapM_map {A B C : Type} (g : A -> B) (f : B -> option C) (l : list A) :
  mapM f (map g l) = mapM (fun a => f (g a)) l.
Proof.
  induction l as [|a l IH]; simpl; [reflexivity|]. rewrite IH; reflexivity.
Qed.

Lemma mapM_post {A B C : Type} (h : B -> C) (f : A -> option B)
      (f' : A -> option C) (l : list A) :
  (forall a, f' a = option_map h (f a)) ->
  mapM f' l = option_map (map h) (mapM f l).
Proof.
  intros Hf; induction l as [|a l IH]; simpl; [reflexivity|].
  rewrite Hf, IH. destruct (f a); simpl; [|reflexivity].
  destruct (mapM f l); reflexivity.
Qed.

Lemma zipM_map_l {A A' B C : Type} (g : A' -> A) (f : A -> B -> option C)
      (u : list A') (v : list B) :
  zipM f (map g u) v = zipM (fun a b => f (g a) b) u v.
Proof.
  revert v; induction u as [|a u IH]; intros [|b v]; simpl; try reflexivity.
  rewrite IH; reflexivity.
Qed.

Lemma zipM_map_r {A B B' C : Type} (g : B' -> B) (f : A -> B -> option C)
      (u : list A) (v : list B') :
  zipM f u (map g v) = zipM (fun a b => f a (g b)) u v.
Proof.
  revert v; induction u as [|a u IH]; intros [|b v]; simpl; try reflexivity.
  rewrite IH; reflexivity.
Qed.

Lemma zipM_post {A B C D : Type} (h : C -> D) (f : A -> B -> option C)
      (f' : A -> B -> option D) (u : list A) (v : list B) :
  (forall a b, f' a b = option_map h (f a b)) ->
  zipM f' u v = option_map (map h) (zipM f u v).
Proof.
  intros Hf; revert v; induction u as [|a u IH]; intros [|b v]; simpl;
    try reflexivity.
  rewrite Hf, IH. destruct (f a b); simpl; [|reflexivity].
  destruct (zipM f u v); reflexivity.
Qed.

Lemma zipM_ext {A B C : Type} (f g : A -> B -> option C)
      (u : list A) (v : list B) :
  (forall a b, f a b = g a b) -> zipM f u v = zipM g u v.
Proof.
  intros H; revert v; induction u as [|a u IH]; intros [|b v]; simpl;
    try reflexivity.
  rewrite H, IH; reflexivity.
Qed.

Lemma bind_option_map {A B C : Type} (h : A -> B) (m : option A)
      (k : B -> option C) :
  bind (option_map h m) k = bind m (fun a => k (h a)).
Proof. destruct m; reflexivity. Qed.

Lemma option_map_bind {A B C : Type} (h : B -> C) (m : option A)
      (k : A -> option B) :
  option_map h (bind m k) = bind m (fun a => option_map h (k a)).
Proof. destruct m; reflexivity. Qed.

Lemma bind_ext {A B : Type} (m : option A) (k k' : A -> option B) :
  (forall a, k a = k' a) -> bind m k = bind m k'.
Proof. intros H; destruct m; simpl; auto. Qed.

Section ExactFacts.

Context {F : Type} {num : Numeric F} {ext : Collaborators F}.
Hypothesis laws : ExactLaws.

Add Ring exact_arith : (exact_ring laws).

Lemma azimuth_custom_cached (f : F -> F) (m : list Z) (mlt : list F) :
  azimuth_custom f m mlt = azimuth_cached f m mlt.
Proof.
  unfold azimuth_custom, azimuth_cached, mmap.
  apply map_ext; intros row. apply map_ext; intros x.
  rewrite (exact_div laws). reflexivity.
Qed.

Lemma fdiv_fneg (x y : F) : fdiv (fneg x) y = fneg (fdiv x y).
Proof.
  replace (fneg x) with (fmul (fneg (of_Z 1)) x) by ring.
  rewrite (exact_div laws). ring.
Qed.

(** Scaling one factor of a product scales the product. *)
Lemma vop_fmul_scale_l (r : F) (u v : list F) :
  vop fmul (map (fun x => fmul r x) u) v
  = option_map (map (fun x => fmul r x)) (vop fmul u v).
Proof.
  unfold vop. rewrite zipM_map_l.
  apply zipM_post; intros a b; simpl. f_equal; ring.
Qed.

Lemma row_op_r_scale (r : F) (A : list (list F)) (m : list F) :
  row_op_r fmul (mmap (fun x => fmul r x) A) m
  = option_map (mmap (fun x => fmul r x)) (row_op_r fmul A m).
Proof.
  unfold row_op_r, mmap. rewrite mapM_map.
  apply mapM_post; intros row. apply vop_fmul_scale_l.
Qed.

Lemma mop_scale (r : F) (A B : list (list F)) :
  mop fmul (mmap (fun x => fmul r x) A) B
  = option_map (mmap (fun x => fmul r x)) (mop fmul A B).
Proof.
  unfold mop, mmap. rewrite zipM_map_l.
  apply zipM_post; intros a b. apply vop_fmul_scale_l.
Qed.

Lemma fold_dot_scale (r : F) (row c : list F) (acc : F) :
  fold_left (fun a ab => fadd a (fmul (fst ab) (snd ab)))
            (combine (map (fun x => fmul r x) row) c) (fmul r acc)
  = fmul r (fold_left (fun a ab => fadd a (fmul (fst ab) (snd ab)))
                      (combine row c) acc).
Proof.
  revert c acc; induction row as [|x row IH]; intros [|y c] acc; simpl;
    try reflexivity.
  rewrite <- IH. f_equal. ring.
Qed.

Lemma dotv_scale (r : F) (row c : list F) :
  dotv (map (fun x => fmul r x) row) c = fmul r (dotv row c).
Proof.
  unfold dotv. rewrite <- fold_dot_scale. f_equal. ring.
Qed.

Lemma dot_scale (r : F) (A : list (list F)) (c : list F) :
  dot (mmap (fun x => fmul r x) A) c
  = option_map (map (fun x => fmul r x)) (dot A c).
Proof.
  unfold dot, mmap. rewrite mapM_map.
  apply mapM_post; intros row.
  rewrite length_map, dotv_scale.
  destruct (Nat.eqb _ _); reflexivity.
Qed.

Lemma dot_AB_scale (r : F) (A B : list (list F)) (c : list F) :
  dot_AB (mmap (fun x => fmul r x) A) B c
  = option_map (map (fun x => fmul r x)) (dot_AB A B c).
Proof.
  unfold dot_AB. rewrite mop_scale, bind_option_map, option_map_bind.
  apply bind_ext; intros Y. apply dot_scale.
Qed.

Lemma dot_AmB_scale (r : F) (A B : list (list F)) (m c : list F) :
  dot_AmB (mmap (fun x => fmul r x) A) m B c
  = option_map (map (fun x => fmul r x)) (dot_AmB A m B c).
Proof.
  unfold dot_AmB. rewrite row_op_r_scale, bind_option_map, option_map_bind.
  apply bind_ext; intros Y.
  rewrite mop_scale, bind_option_map, option_map_bind.
  apply bind_ext; intros Y'. apply dot_scale.
Qed.

Lemma vop_scale (f : F -> F -> F) (r : F) (u v : list F) :
  (forall a b, f (fmul r a) (fmul r b) = fmul r (f a b)) ->
  vop f (map (fun x => fmul r x) u) (map (fun x => fmul r x) v)
  = option_map (map (fun x => fmul r x)) (vop f u v).
Proof.
  intros Hf. unfold vop. rewrite zipM_map_l, zipM_map_r.
  apply zipM_post; intros a b; simpl. f_equal; apply Hf.
Qed.

Lemma vop_fadd_fneg (u v : list F) :
  vop fadd (map fneg u) v = option_map (map fneg) (vop fsub u v).
Proof.
  unfold vop. rewrite zipM_map_l.
  apply zipM_post; intros a b; simpl. f_equal; ring.
Qed.

(** C2. On a state with a valid cache and under exact arithmetic, the
    divergence-free current and the curl-free current evaluated at custom
    coordinates equal to the stored vector grid are the cached-grid
    results, east and north, failures included. *)
Theorem custom_at_vectorgrid_is_cached (s : AMPS F) :
  cache_valid s ->
  get_divergence_free_current s (Some (fst (vectorgrid s)))
                                (Some (snd (vectorgrid s)))
    = get_divergence_free_current s None None /\
  get_curl_free_current s (Some (fst (vectorgrid s)))
                          (Some (snd (vectorgrid s)))
    = get_curl_free_current s None None.
Proof.
  intros Hv.
  destruct (cache_valid_fields Hv)
    as [(C1 & _ & C3 & _ & C5 & _ & C7 & _ & C9) [(P1 & _ & P3 & _) D]].
  destruct D as (d1 & _ & d3 & _ & [D1 D1'] & _ & [D3 D3'] & _).
  cbv zeta in P1, P3, D1, D3.
  split.
  - unfold get_divergence_free_current.
    destruct (get_legendre (N s) (M s) (colat (fst (vectorgrid s)))) as [tP tdP].
    cbn [fst snd] in P1, D1. rewrite P1, D1. cbn [bind].
    rewrite !azimuth_custom_cached, <- C1, <- C3, <- D1', <- C9.
    apply bind_ext; intros e1. apply bind_ext; intros e2.
    apply bind_ext; intros east. apply bind_ext; intros n1.
    apply bind_ext; intros n2.
    rewrite vop_fadd_fneg, bind_option_map. reflexivity.
  - unfold get_curl_free_current.
    destruct (get_legendre (N s) (M s) (colat (fst (vectorgrid s)))) as [tP tdP].
    cbn [fst snd] in P3, D3. rewrite P3, D3. cbn [bind].
    rewrite !azimuth_custom_cached, <- C5, <- C7, <- D3', <- C9.
    rewrite !dot_AmB_scale, !dot_AB_scale, !bind_option_map.
    apply bind_ext; intros e1. rewrite bind_option_map.
    apply bind_ext; intros e2.
    rewrite (vop_scale fsub), bind_option_map by (intros; ring).
    apply bind_ext; intros e. apply bind_ext; intros east.
    rewrite bind_option_map.
    apply bind_ext; intros n1. rewrite bind_option_map.
    apply bind_ext; intros n2.
    rewrite (vop_scale fadd), bind_option_map by (intros; ring).
    reflexivity.
Qed.

(** The sign in front of [rr] in [get_ground_perturbation] is the sign
    [calculate_matrices] put on the cached derivative. *)
Lemma ground_factor_sign (s : AMPS F) (A : list (list F)) :
  row_op_l fmul (ground_factor (fun x => x) s) (mmap fneg A)
  = row_op_l fmul (ground_factor fneg s) A.
Proof.
  unfold row_op_l, mmap. rewrite mapM_map.
  apply mapM_ext; intros row _.
  unfold vop, ground_factor. rewrite zipM_map_r, !zipM_map_l.
  apply zipM_ext; intros n b. f_equal.
  set (p := fpow _ _). set (a := fadd _ _).
  replace (fmul (fneg p) a) with (fneg (fmul p a)) by ring.
  rewrite fdiv_fneg. ring.
Qed.


End ExactFacts.

(** ** Shapes, and the scenario at resolution 4 *)

Section ShapeFacts.

Context {F : Type} {num : Numeric F}.

Lemma zipM_Forall {A B C : Type} (P : C -> Prop) (f : A -> B -> option C)
      (u : list A) (v : list B) (r : list C) :
  (forall a b c, In a u -> In b v -> f a b = Some c -> P c) ->
  zipM f u v = Some r -> Forall P r.
Proof.
  revert v r; induction u as [|a u IH]; intros [|b v] r Hf H; simpl in H;
    try discriminate.
  - injection H as <-; constructor.
  - destruct (f a b) as [c|] eqn:E; simpl in H; [|discriminate].
    destruct (zipM f u v) as [r'|] eqn:E'; simpl in H; [|discriminate].
    injection H as <-. constructor.
    + eapply Hf; [left; reflexivity | left; reflexivity | exact E].
    + eapply IH; [|exact E']. intros; eapply Hf; eauto; right; assumption.
Qed.

Lemma vop_defined (f : F -> F -> F) (u v : list F) :
  length u = length v ->
  exists w, vop f u v = Some w /\ length w = length u.
Proof.
  intros H. unfold vop. rewrite (zipM_total f u v H).
  eexists; split; [reflexivity|].
  rewrite length_map, length_combine. lia.
Qed.

Lemma mapM_defined {A B : Type} (P : B -> Prop) (f : A -> option B) (l : list A) :
  (forall a, In a l -> exists b, f a = Some b /\ P b) ->
  exists r, mapM f l = Some r /\ length r = length l /\ Forall P r.
Proof.
  induction l as [|a l IH]; simpl; intros H.
  - exists []; repeat split; constructor.
  - destruct (H a (or_introl eq_refl)) as [b [E Pb]].
    destruct IH as [r [E' [L Pr]]]; [intros; apply H; right; assumption|].
    rewrite E, E'; simpl. exists (b :: r); repeat split; simpl; auto.
Qed.

Lemma row_op_l_shape (f : F -> F -> F) (r : list F) (A : list (list F))
      (p k : nat) :
  has_shape A p k -> length r = k ->
  exists C, row_op_l f r A = Some C /\ has_shape C p k.
Proof.
  intros [Hp Hk] Hr. unfold row_op_l.
  destruct (mapM_defined (fun row => length row = k)
                         (fun row => vop f r row) A) as [C [E [L HC]]].
  - intros row Hin.
    rewrite Forall_forall in Hk. specialize (Hk row Hin).
    destruct (vop_defined f r row) as [w [E L]]; [congruence|].
    exists w; split; [exact E | congruence].
  - exists C; split; [exact E|]. split; [congruence | exact HC].
Qed.

Lemma mop_shape (f : F -> F -> F) (A B : list (list F)) (p k : nat) :
  has_shape A p k -> has_shape B p k ->
  exists C, mop f A B = Some C /\ has_shape C p k.
Proof.
  unfold has_shape, mop. revert B p.
  induction A as [|a A IH]; intros [|b B] p [Lp Hk] [Lp' Hk']; simpl in *;
    try congruence.
  - exists []; repeat split; auto.
  - inversion Hk as [|? ? Ha HA]; inversion Hk' as [|? ? Hb HB]; subst.
    destruct (vop_defined f a b) as [w [E L]]; [congruence|].
    destruct (IH B (length A)) as [C [E' [LC HC]]]; [auto | split; [lia|auto] |].
    rewrite E, E'; simpl. exists (w :: C); repeat split; simpl; auto.
Qed.

Lemma dot_shape (A : list (list F)) (c : list F) (p k : nat) :
  has_shape A p k -> length c = k ->
  exists d, dot A c = Some d /\ length d = p.
Proof.
  intros [Hp Hk] Hc. unfold dot.
  destruct (mapM_defined (fun _ : F => True)
              (fun row => if Nat.eqb (length row) (length c)
                          then Some (dotv row c) else None) A)
    as [d [E [L _]]].
  - intros row Hin.
    rewrite Forall_forall in Hk. specialize (Hk row Hin).
    rewrite Hk, Hc, Nat.eqb_refl. eexists; split; [reflexivity | exact I].
  - exists d; split; [exact E | congruence].
Qed.

Lemma dot_rAB_shape (r : list F) (A B : list (list F)) (c : list F)
      (p k : nat) :
  has_shape A p k -> has_shape B p k -> length r = k -> length c = k ->
  exists d, dot_rAB r A B c = Some d /\ length d = p.
Proof.
  intros HA HB Hr Hc. unfold dot_rAB.
  destruct (row_op_l_shape fmul r HA Hr) as [X [E HX]].
  destruct (mop_shape fmul HX HB) as [Y [E' HY]].
  rewrite E; cbn [bind]. rewrite E'; cbn [bind].
  eapply dot_shape; eassumption.
Qed.

Lemma azimuth_cached_shape (f : F -> F) (m : list Z) (mlt : list F) :
  has_shape (azimuth_cached f m mlt) (length mlt) (length m).
Proof.
  split; [apply azimuth_cached_length|].
  unfold azimuth_cached, mmap, outer.
  rewrite Forall_forall; intros row Hin.
  rewrite in_map_iff in Hin; destruct Hin as [row' [<- Hin]].
  rewrite in_map_iff in Hin; destruct Hin as [x [<- _]].
  rewrite !length_map; reflexivity.
Qed.

(** Stacking the columns of a non-empty key list gives one row per entry
    of the columns and one column per key. *)
Lemma stack_keys_shape (table : key -> option (list F)) (keys : list key)
      (A : list (list F)) (p : nat) :
  (forall k col, table k = Some col -> length col = p) ->
  keys <> [] ->
  stack_keys table keys = Some A -> has_shape A p (length keys).
Proof.
  intros Ht Hne H. unfold stack_keys in H. inv_bind H.
  unfold transpose_cols in H.
  destruct (forallb _ a); [|discriminate]. injection H as <-.
  assert (La : length a = length keys) by (eapply mapM_length; eauto).
  assert (Hp : length (hd [] a) = p).
  { destruct keys as [|k0 keys]; [congruence|]. simpl in E.
    destruct (table k0) as [c0|] eqn:E0; simpl in E; [|discriminate].
    destruct (mapM table keys); simpl in E; [|discriminate].
    injection E as <-. simpl. eauto. }
  split.
  - rewrite length_map, length_seq. exact Hp.
  - rewrite Forall_forall; intros row Hin.
    rewrite in_map_iff in Hin; destruct Hin as [i [<- _]].
    rewrite length_map. exact La.
Qed.

Lemma chunks_shape (r c : nat) (x : list F) :
  length x = r * c -> has_shape (chunks r c x) r c.
Proof.
  revert x; induction r as [|r IH]; intros x H; simpl.
  - split; [reflexivity | constructor].
  - destruct (IH (skipn c x)) as [L HF]; [rewrite length_skipn; simpl in H; lia|].
    split; simpl; [congruence|].
    constructor; [|exact HF].
    rewrite length_firstn. simpl in H. lia.
Qed.

End ShapeFacts.

Section ScenarioFacts.

Context {F : Type} {num : Numeric F} {ext : Collaborators F}.

(** [calculate_matrices] writes the cache and nothing else. *)
Lemma calculate_matrices_frame (s s' : AMPS F) :
  calculate_matrices s = Some s' ->
  (tor_c s' = tor_c s /\ tor_s s' = tor_s s /\
   pol_c s' = pol_c s /\ pol_s s' = pol_s s /\
   pol_keys s' = pol_keys s /\ tor_keys s' = tor_keys s) /\
  (height s' = height s /\ dr s' = dr s /\ M0 s' = M0 s /\
   minlat s' = minlat s /\ maxlat s' = maxlat s) /\
  (keys_P s' = keys_P s /\ keys_T s' = keys_T s /\
   m_P s' = m_P s /\ m_T s' = m_T s /\ n_P s' = n_P s /\ n_T s' = n_T s /\
   N s' = N s /\ M s' = M s) /\
  (vectorgrid s' = vectorgrid s /\ scalargrid s' = scalargrid s /\
   scalar_resolution s' = scalar_resolution s).
Proof.
  unfold calculate_matrices. intros H.
  destruct (get_legendre _ _ (colat (fst (vectorgrid s)))) as [vP vdP].
  destruct (get_legendre _ _ (colat (fst (scalargrid s)))) as [sP sdP].
  inv_bind H. injection H as <-.
  fields.
  repeat split.
Qed.

Lemma key_row_Some (proj : key -> Z) (keys : list key) (r : list Z) :
  key_row proj keys = Some r -> keys <> [] /\ r = map proj keys.
Proof.
  destruct keys; simpl; intros H; [discriminate|].
  injection H as <-; split; [discriminate | reflexivity].
Qed.

(** The assertion of [__init__] refuses poloidal vectors of different
    lengths. *)
Lemma init_checks_poloidal_lengths
      (v By Bz tilt F107 minlat maxlat height dr : F) (M0 resolution : Z) :
  (let '(_, _, pc, ps, _, _) := get_model_vectors v By Bz tilt F107 in
   length ps <> length pc) ->
  __init__ v By Bz tilt F107 minlat maxlat height dr M0 resolution = None.
Proof.
  unfold __init__.
  destruct (get_model_vectors v By Bz tilt F107) as [[[[[tc ts] pc] ps] pk] tk].
  intros H. apply Nat.eqb_neq in H. rewrite H. reflexivity.
Qed.

(** What a successful construction stores. *)
Lemma init_fields (v By Bz tilt F107 minlat maxlat height dr : F)
      (M0 resolution : Z) (s : AMPS F) :
  __init__ v By Bz tilt F107 minlat maxlat height dr M0 resolution = Some s ->
  (tor_c s, tor_s s, pol_c s, pol_s s, keys_P s, keys_T s)
    = get_model_vectors v By Bz tilt F107 /\
  (pol_keys s = keys_P s /\ tor_keys s = keys_T s) /\
  length (pol_s s) = length (pol_c s) /\
  (keys_P s <> [] /\ keys_T s <> []) /\
  (m_P s = map snd (keys_P s) /\ m_T s = map snd (keys_T s) /\
   n_P s = map fst (keys_P s) /\ n_T s = map fst (keys_T s)) /\
  highest_degree_order (keys_T s) (keys_T s) = Some (N s, M s) /\
  _get_vectorgrid dr M0 minlat maxlat = Some (vectorgrid s) /\
  _get_scalargrid minlat maxlat resolution = Some (scalargrid s) /\
  scalar_resolution s = resolution.
Proof.
  unfold __init__.
  destruct (get_model_vectors v By Bz tilt F107) as [[[[[tc ts] pc] ps] pk] tk].
  destruct (Nat.eqb (length ps) (length pc)) eqn:Ea; [|discriminate].
  cbn [andb negb]. intros H; inv_bind H.
  destruct a3 as [hN hM]. inv_bind H.
  apply Nat.eqb_eq in Ea.
  apply key_row_Some in E, E0, E1, E2.
  destruct E as [Np ->], E0 as [Nt ->], E1 as [_ ->], E2 as [_ ->].
  apply calculate_matrices_frame in H.
  destruct H
    as ((-> & -> & -> & -> & -> & ->) & _ &
        (-> & -> & -> & -> & -> & -> & -> & ->) & (-> & -> & ->)).
  fields.
  repeat split; assumption.
Qed.

(** The latitudes of [np.linspace(60, 89.99, 4)] are positive. *)
Lemma linspace_60_8999_positive (order : OrderLaws) (i : Z) :
  (0 <= i)%Z ->
  flt (of_Z 0)
      (fadd (fmul (of_Z i)
                  (fdiv (fsub (lit (8999 # 100)) (of_Z 60)) (of_Z 3)))
            (of_Z 60)) = true.
Proof.
  intros Hi.
  apply (add_nonneg_pos order).
  - apply (mul_nonneg order); [apply (of_Z_nonneg order); exact Hi|].
    apply (div_nonneg order); [|apply (of_Z_pos order); reflexivity].
    apply (sub_nonneg order), (of_Z_le_lit order).
    unfold Qle; simpl; lia.
  - apply (of_Z_pos order); reflexivity.
Qed.


End ScenarioFacts.

(** ** Runs on the rational instance *)

Module ExactRuns.

Import Exact.

Lemma leb_iff (a b : Qc) : Qc_leb a b = true <-> (this a <= this b)%Q.
Proof. apply Qle_bool_iff. Qed.

Lemma ltb_iff (a b : Qc) : Qc_ltb a b = true <-> (this a < this b)%Q.
Proof.
  unfold Qc_ltb. rewrite negb_true_iff, <- not_true_iff_false, Qle_bool_iff.
  split; [apply Qnot_le_lt | apply Qlt_not_le].
Qed.

Lemma exact_laws : ExactLaws (F := Qc).
Proof.
  split.
  - exact Qcrt.
  - intros x y z0. simpl. unfold Qcdiv. symmetry. apply Qcmult_assoc.
Qed.

Ltac to_Q :=
  cbn [this z q Q2Qc Qcplus Qcminus Qcmult Qcdiv Qcopp Qcinv] in *;
  rewrite ?Qred_correct in *.

Lemma order_laws : OrderLaws (F := Qc).
Proof.
  split; cbn [of_Z lit fadd fsub fmul fdiv fneg fle flt numeric].
  - intros n Hn. apply leb_iff. to_Q. rewrite <- Zle_Qle. exact Hn.
  - intros n Hn. apply ltb_iff. to_Q. rewrite <- Zlt_Qlt. exact Hn.
  - intros x Hx. apply ltb_iff. to_Q. exact Hx.
  - intros n x Hx. apply leb_iff. to_Q. exact Hx.
  - intros a b H. apply leb_iff in H. apply leb_iff. to_Q.
    apply (Qplus_le_compat _ _ (- a) (- a)) in H; [|apply Qle_refl].
    rewrite Qplus_opp_r in H. exact H.
  - intros a b Ha Hb. apply leb_iff in Ha. apply ltb_iff in Hb.
    apply leb_iff. to_Q.
    apply Qmult_le_0_compat; [exact Ha|].
    apply Qinv_le_0_compat, Qlt_le_weak, Hb.
  - intros a b Ha Hb. apply leb_iff in Ha, Hb. apply leb_iff. to_Q.
    apply Qmult_le_0_compat; assumption.
  - intros a b Ha Hb. apply leb_iff in Ha. apply ltb_iff in Hb.
    apply ltb_iff. to_Q.
    apply (Qlt_le_trans _ (0 + b)); [rewrite Qplus_0_l; exact Hb|].
    apply Qplus_le_compat; [exact Ha | apply Qle_refl].
Qed.

Lemma regular_model_contract : model_contract (ext := regular).
Proof. intros v By Bz tilt F107. simpl. repeat split. Qed.

Lemma regular_legendre_contract : legendre_contract (ext := regular).
Proof.
  intros hN hM x [n m] col. simpl. unfold table.
  destruct (_ && _)%bool; intros [H|H]; try discriminate;
    injection H as <-; apply length_map.
Qed.

(** C3. The poloidal keys take no part in N and M: on a coefficient model
    whose poloidal keys have degree 3 and whose toroidal keys have degree 1,
    construction stores N = 1 and M = 1 when the Legendre tables serve
    every key, and fails on a missing key when they stop at N and M. *)
Theorem degree_and_order_ignore_poloidal_keys :
  match engine (skewed legendre_any) 300 with
  | Some s =>
      keys_P s = [(3, 0); (3, 1)]%Z /\ keys_T s = [(1, 0); (1, 1)]%Z /\
      N s = 1%Z /\ M s = 1%Z
  | None => False
  end /\
  engine (skewed legendre) 300 = None.
Proof.
  split; vm_compute; repeat split.
Qed.

(** C4. The toroidal lengths are never compared and [update_model]
    compares nothing: on a coefficient model with three tor_c and two tor_s
    entries construction succeeds, and a later update stores a pol_s
    shorter than pol_c; the same poloidal mismatch at construction is
    refused. *)
Theorem coefficient_lengths_unchecked :
  match engine ragged 300 with
  | Some s =>
      length (tor_c s) = 3 /\ length (tor_s s) = 2 /\
      let s' := update_model (ext := ragged) s
                             (z (-300)) (z (-4)) (z (-3)) (z 20) (z 150) in
      length (pol_c s') = 2 /\ length (pol_s s') = 1
  | None => False
  end /\
  engine ragged (-300) = None.
Proof.
  split; vm_compute; repeat split.
Qed.

(** The engine on the regular model is constructed. *)
Lemma engine_regular_runs : engine regular 300 <> None.
Proof. vm_compute. discriminate. Defined.

Lemma grids_are_mirrored_witness :
  exists gv gs : list Qc * list Qc,
    _get_vectorgrid (ext := regular) (z 2) 4 (z 60) (q (8999 # 100)) = Some gv /\
    _get_scalargrid (z 60) (q (8999 # 100)) 4 = Some gs /\
    mirrored gv /\ mirrored gs.
Proof.
  destruct (_get_vectorgrid (ext := regular) (z 2) 4 (z 60) (q (8999 # 100)))
    as [gv|] eqn:Ev; [|vm_compute in Ev; discriminate].
  destruct (_get_scalargrid (z 60) (q (8999 # 100)) 4)
    as [gs|] eqn:Es; [|vm_compute in Es; discriminate].
  exists gv, gs. repeat split; try reflexivity.
  - exact (proj1 (grids_are_mirrored (ext := regular)) _ _ _ _ _ Ev).
  - exact (proj2 (grids_are_mirrored (ext := regular)) _ _ _ _ Es).
Defined.


Lemma custom_at_vectorgrid_is_cached_witness :
  exists s : AMPS Qc,
    engine regular 300 = Some s /\ cache_valid (ext := regular) s /\
    get_divergence_free_current (ext := regular) s
        (Some (fst (vectorgrid s))) (Some (snd (vectorgrid s)))
      = get_divergence_free_current (ext := regular) s None None /\
    get_curl_free_current (ext := regular) s
        (Some (fst (vectorgrid s))) (Some (snd (vectorgrid s)))
      = get_curl_free_current (ext := regular) s None None.
Proof.
  destruct (engine regular 300) as [s|] eqn:E;
    [|exact (False_ind _ (engine_regular_runs E))].
  pose proof (init_cache_valid (ext := regular) _ _ _ _ _ _ _ _ _ _ _ E) as Hv.
  exists s. split; [reflexivity|]. split; [exact Hv|].
  exact (custom_at_vectorgrid_is_cached (ext := regular) exact_laws Hv).
Defined.

(** The ground perturbation on the scalar grid of the regular engine is
    defined. *)
Lemma ground_perturbation_runs :
  bind (engine regular 300)
       (fun s => get_ground_perturbation (ext := regular) s
                   (fst (scalargrid s)) (snd (scalargrid s))) <> None.
Proof. vm_compute. discriminate. Defined.



End ExactRuns.

(** * Further properties of the engine *)

(** ** Construction, update and the cache *)

Section LifecycleFacts.

Context {F : Type} {num : Numeric F} {ext : Collaborators F}.

(** X1. [calculate_matrices] is idempotent: called again on the object it
    returned, it returns that object unchanged. *)
Theorem calculate_matrices_idempotent (s s' : AMPS F) :
  calculate_matrices s = Some s' -> calculate_matrices s' = Some s'.
Proof.
  intros H. apply calculate_matrices_valid in H. exact H.
Qed.

Lemma update_all_cache_valid (ds : list (F * F * F * F * F)) (s : AMPS F) :
  cache_valid s -> cache_valid (update_all s ds).
Proof.
  revert s; induction ds as [|[[[[v By] Bz] tilt] F107] ds IH]; intros s H.
  - exact H.
  - apply IH. apply update_model_cache_valid. exact H.
Qed.

(** X2. After a successful construction and any sequence of [update_model]
    calls the cached basis matrices are those [calculate_matrices] would
    compute from the current grids and key structure. *)
Theorem cache_valid_after_updates
        (v By Bz tilt F107 minlat maxlat height dr : F) (M0 resolution : Z)
        (s : AMPS F) (ds : list (F * F * F * F * F)) :
  __init__ v By Bz tilt F107 minlat maxlat height dr M0 resolution = Some s ->
  cache_valid (update_all s ds).
Proof.
  intros H. apply update_all_cache_valid.
  eapply init_cache_valid; exact H.
Qed.

Lemma update_model_twice (s : AMPS F) (v By Bz tilt F107 v' By' Bz' tilt' F107' : F) :
  update_model (update_model s v By Bz tilt F107) v' By' Bz' tilt' F107'
  = update_model s v' By' Bz' tilt' F107'.
Proof.
  unfold update_model.
  destruct (get_model_vectors v' By' Bz' tilt' F107') as [[[[[tc' ts'] pc'] ps'] pk'] tk'].
  destruct (get_model_vectors v By Bz tilt F107) as [[[[[tc ts] pc] ps] pk] tk].
  reflexivity.
Qed.

Lemma update_model_after_all (ds : list (F * F * F * F * F)) (s : AMPS F)
      (v By Bz tilt F107 : F) :
  update_model (update_all s ds) v By Bz tilt F107
  = update_model s v By Bz tilt F107.
Proof.
  revert s; induction ds as [|[[[[v0 By0] Bz0] tilt0] F0] ds IH]; intros s.
  - reflexivity.
  - simpl. rewrite IH. apply update_model_twice.
Qed.

(** X3. Updating back to the drivers of the construction, after any
    sequence of updates, gives back the constructed object, field for
    field: the object keeps no trace of the intermediate drivers. *)
Theorem update_model_restores_construction
        (v By Bz tilt F107 minlat maxlat height dr : F) (M0 resolution : Z)
        (s : AMPS F) (ds : list (F * F * F * F * F)) :
  __init__ v By Bz tilt F107 minlat maxlat height dr M0 resolution = Some s ->
  update_model (update_all s ds) v By Bz tilt F107 = s.
Proof.
  intros H. rewrite update_model_after_all.
  destruct (init_fields _ _ _ _ _ _ _ _ _ _ _ H) as (Hc & [Hp Ht] & _).
  unfold update_model. rewrite <- Hc.
  destruct s. fields_in_all. subst. reflexivity.
Qed.

(** X4. Construction fails when the coefficient model returns an empty
    poloidal or toroidal key list. *)
Theorem init_fails_without_keys
        (v By Bz tilt F107 minlat maxlat height dr : F) (M0 resolution : Z) :
  (let '(_, _, _, _, pk, tk) := get_model_vectors v By Bz tilt F107 in
   pk = [] \/ tk = []) ->
  __init__ v By Bz tilt F107 minlat maxlat height dr M0 resolution = None.
Proof.
  unfold __init__.
  destruct (get_model_vectors v By Bz tilt F107) as [[[[[tc ts] pc] ps] pk] tk].
  intros H. destruct (negb _); [reflexivity|].
  destruct H as [-> | ->]; [reflexivity|].
  destruct (key_row snd pk); reflexivity.
Qed.

Lemma fold_max_spec (r : list Z) (a : Z) :
  (a <= fold_left Z.max r a)%Z /\
  (forall b, In b r -> (b <= fold_left Z.max r a)%Z) /\
  (fold_left Z.max r a = a \/ In (fold_left Z.max r a) r).
Proof.
  revert a; induction r as [|x r IH]; intros a; simpl.
  - split; [lia|]. split; [tauto | left; reflexivity].
  - destruct (IH (Z.max a x)) as (H1 & H2 & H3).
    split; [lia|]. split.
    + intros b [<- | Hb]; [lia | auto].
    + destruct H3 as [H3 | H3]; [|right; right; exact H3].
      rewrite H3. destruct (Z.max_spec a x) as [[_ ->] | [_ ->]]; auto.
Qed.

Lemma row_max_spec (x : list Z) (m : Z) :
  row_max x = Some m -> (forall b, In b x -> (b <= m)%Z) /\ In m x.
Proof.
  destruct x as [|a r]; simpl; intros H; [discriminate|].
  injection H as <-.
  destruct (fold_max_spec r a) as (H1 & H2 & H3).
  split.
  - intros b [<- | Hb]; auto.
  - destruct H3 as [-> | H3]; auto.
Qed.

(** X18. After a successful construction N and M are the largest degree and
    the largest order among the toroidal keys: they bound every toroidal
    key and each is attained by one. *)
Theorem N_M_are_toroidal_maxima
        (v By Bz tilt F107 minlat maxlat height dr : F) (M0 resolution : Z)
        (s : AMPS F) :
  __init__ v By Bz tilt F107 minlat maxlat height dr M0 resolution = Some s ->
  (forall n m : Z, In (n, m) (keys_T s) -> (n <= N s)%Z /\ (m <= M s)%Z) /\
  (exists k : key, In k (keys_T s) /\ fst k = N s) /\
  (exists k : key, In k (keys_T s) /\ snd k = M s).
Proof.
  intros H.
  destruct (init_fields _ _ _ _ _ _ _ _ _ _ _ H) as (_ & _ & _ & _ & _ & Hh & _).
  unfold highest_degree_order in Hh. inv_bind Hh. injection Hh as <- <-.
  apply row_max_spec in E, E0.
  destruct E as [B1 A1], E0 as [B2 A2].
  split; [|split].
  - intros n m Hin. split.
    + apply B1, in_or_app; left. apply (in_map fst _ _ Hin).
    + apply B2, in_or_app; left. apply (in_map snd _ _ Hin).
  - apply in_app_or in A1. rewrite in_map_iff in A1.
    destruct A1 as [A1 | A1]; destruct A1 as [k [Hk Hin]]; exists k; auto.
  - apply in_app_or in A2. rewrite in_map_iff in A2.
    destruct A2 as [A2 | A2]; destruct A2 as [k [Hk Hin]]; exists k; auto.
Qed.

End LifecycleFacts.

(** ** More on the grids *)

Section GridSizeFacts.

Context {F : Type} {num : Numeric F} {ext : Collaborators F}.

Lemma select_map_filter (p : F -> bool) (x : list F) :
  select (map p x) x = Some (filter p x).
Proof.
  induction x as [|a x IH]; simpl; [reflexivity|].
  rewrite IH; simpl. destruct (p a); reflexivity.
Qed.

(** X5. The northern half of the vector grid lies in the latitude band:
    each of its first k latitudes satisfies minlat <= mlat <= maxlat, as the
    program compares them. *)
Theorem vectorgrid_within_band (dr : F) (M0 : Z) (minlat maxlat : F)
        (g : list F * list F) :
  _get_vectorgrid dr M0 minlat maxlat = Some g ->
  exists k : nat,
    length (fst g) = 2 * k /\
    forall (i : nat) (d : F), i < k ->
      fle minlat (nth i (fst g) d) = true /\
      fle (nth i (fst g) d) maxlat = true.
Proof.
  unfold _get_vectorgrid.
  destruct (equalAreaGrid dr M0) as [[g0 g1] g2].
  intros H; inv_bind H. injection H as <-.
  rewrite select_map_filter in E3. injection E3 as <-.
  match goal with
  | |- context [filter ?p ?l] => set (sel := filter p l)
  end.
  exists (length sel). cbn [fst].
  split; [rewrite length_app, length_map; lia|].
  intros i d Hi. rewrite app_nth1 by exact Hi.
  pose proof (nth_In sel d Hi) as Hin.
  unfold sel in Hin at 2. apply filter_In in Hin. destruct Hin as [_ Hin].
  apply andb_true_iff in Hin. exact Hin.
Qed.

Lemma linspace_length (start stop : F) (n : Z) :
  (0 <= n)%Z ->
  exists x, linspace start stop n = Some x /\ length x = Z.to_nat n.
Proof.
  intros H. unfold linspace.
  destruct (Z.ltb_spec n 0) as [Hn|_]; [lia|].
  destruct (Z.to_nat n) as [|[|d]]; eexists; (split; [reflexivity|]);
    try reflexivity.
  rewrite length_app, length_map, length_seq. simpl. lia.
Qed.

Lemma meshgrid_ravel_size (x y : list F) :
  length (fst (meshgrid_ravel x y)) = length y * length x.
Proof.
  unfold meshgrid_ravel; simpl.
  induction y as [|a y IH]; simpl; [reflexivity|].
  rewrite length_app, IH; reflexivity.
Qed.

Lemma scalargrid_length (minlat maxlat : F) (resolution : Z) :
  (0 <= resolution)%Z ->
  exists g : list F * list F,
    _get_scalargrid minlat maxlat resolution = Some g /\
    length (fst g) = 2 * (Z.to_nat resolution * Z.to_nat resolution) /\
    length (snd g) = 2 * (Z.to_nat resolution * Z.to_nat resolution).
Proof.
  intros H. unfold _get_scalargrid.
  destruct (linspace_length minlat maxlat H) as [x [-> Lx]].
  destruct (linspace_length (fneg (lit (1799 # 10))) (lit (1799 # 10)) H)
    as [y [-> Ly]].
  cbn [bind].
  pose proof (meshgrid_ravel_size x y) as S1.
  pose proof (meshgrid_ravel_length x y) as S2.
  destruct (meshgrid_ravel x y) as [mlat mlt]. cbn [fst snd] in *.
  eexists; split; [reflexivity|]. cbn [fst snd].
  rewrite !length_map, !length_app, length_map. split; lia.
Qed.

(** X6. With resolution R >= 0 the scalar grid is built and has 2 R^2
    points in both coordinates; with a negative resolution building it
    fails. *)
Theorem scalargrid_size (minlat maxlat : F) (resolution : Z) :
  ((0 <= resolution)%Z ->
   exists g : list F * list F,
     _get_scalargrid minlat maxlat resolution = Some g /\
     length (fst g) = 2 * (Z.to_nat resolution * Z.to_nat resolution) /\
     length (snd g) = 2 * (Z.to_nat resolution * Z.to_nat resolution)) /\
  ((resolution < 0)%Z -> _get_scalargrid minlat maxlat resolution = None).
Proof.
  split; [apply scalargrid_length|].
  intros H. unfold _get_scalargrid, linspace.
  destruct (Z.ltb_spec resolution 0) as [_|Hn]; [reflexivity | lia].
Qed.

End GridSizeFacts.

(** ** The scalar maps *)

Section MapFacts.

Context {F : Type} {num : Numeric F} {ext : Collaborators F}.

Lemma even_half (n : nat) : Nat.even n = true -> n = 2 * Nat.div2 n.
Proof.
  intros H. pose proof (Nat.div2_odd n) as E.
  rewrite <- Nat.negb_even, H in E. simpl in E. lia.
Qed.

Lemma split2_spec (x a b : list F) :
  split2 x = Some (a, b) ->
  a ++ b = x /\ length a = Nat.div2 (length x) /\ length b = Nat.div2 (length x).
Proof.
  unfold split2. destruct (Nat.even (length x)) eqn:E; [|discriminate].
  intros H; injection H as <- <-.
  pose proof (even_half _ E) as L.
  split; [apply firstn_skipn|].
  rewrite length_firstn, length_skipn. lia.
Qed.

Lemma split2_double (x : list F) (m : nat) :
  length x = 2 * m -> split2 x = Some (firstn m x, skipn m x).
Proof.
  intros H. unfold split2. rewrite H, Nat.div2_double.
  replace (Nat.even (2 * m)) with true; [reflexivity|].
  symmetry. apply Nat.even_spec. exists m. reflexivity.
Qed.

Lemma concat_chunks (r c : nat) (x : list F) :
  length x = r * c -> concat (chunks r c x) = x.
Proof.
  revert x; induction r as [|r IH]; intros x H; simpl in *.
  - destruct x; [reflexivity | discriminate].
  - rewrite IH by (rewrite length_skipn; lia). apply firstn_skipn.
Qed.

Lemma reshape_spec (x : list F) (r c : Z) (A : list (list F)) :
  reshape x r c = Some A ->
  has_shape A (Z.to_nat r) (Z.to_nat c) /\ concat A = x /\
  length x = Z.to_nat r * Z.to_nat c.
Proof.
  unfold reshape. destruct (_ || _)%bool; [discriminate|].
  destruct (Nat.eqb_spec (length x) (Z.to_nat r * Z.to_nat c)) as [L|];
    [|discriminate].
  intros H; injection H as <-.
  split; [apply chunks_shape; exact L|].
  split; [apply concat_chunks; exact L | exact L].
Qed.

Lemma reshape_defined (x : list F) (r : Z) :
  (0 <= r)%Z -> length x = Z.to_nat r * Z.to_nat r ->
  reshape x r r = Some (chunks (Z.to_nat r) (Z.to_nat r) x).
Proof.
  intros H L. unfold reshape.
  destruct (Z.ltb_spec r 0) as [Hn|_]; [lia|]. cbn [orb].
  rewrite L, Nat.eqb_refl. reflexivity.
Qed.

(** X7. Splitting a point-ordered vector into the north and south maps
    loses nothing: both maps have scalar_resolution rows and columns, and
    read row by row, north then south, they give the vector back. *)
Theorem north_south_round_trip (s : AMPS F) (x : list F)
        (a b : list (list F)) :
  north_south s x = Some (a, b) ->
  has_shape a (Z.to_nat (scalar_resolution s)) (Z.to_nat (scalar_resolution s)) /\
  has_shape b (Z.to_nat (scalar_resolution s)) (Z.to_nat (scalar_resolution s)) /\
  concat a ++ concat b = x.
Proof.
  unfold north_south. intros H. inv_bind H.
  destruct a0 as [x_n x_s]. inv_bind H. injection H as <- <-.
  apply split2_spec in E. destruct E as [E _].
  apply reshape_spec in E0, E1.
  destruct E0 as (Sa & Ca & _), E1 as (Sb & Cb & _).
  split; [exact Sa|]. split; [exact Sb|]. congruence.
Qed.

Lemma north_south_length (s : AMPS F) (x : list F) (a b : list (list F)) :
  north_south s x = Some (a, b) ->
  has_shape a (Z.to_nat (scalar_resolution s)) (Z.to_nat (scalar_resolution s)) /\
  has_shape b (Z.to_nat (scalar_resolution s)) (Z.to_nat (scalar_resolution s)) /\
  length x = 2 * (Z.to_nat (scalar_resolution s) * Z.to_nat (scalar_resolution s)).
Proof.
  unfold north_south. intros H. inv_bind H.
  destruct a0 as [x_n x_s]. inv_bind H. injection H as <- <-.
  apply split2_spec in E. destruct E as [E _].
  apply reshape_spec in E0, E1.
  destruct E0 as (Sa & _ & La), E1 as (Sb & _ & Lb).
  split; [exact Sa|]. split; [exact Sb|].
  rewrite <- E, length_app. lia.
Qed.

Lemma north_south_defined (s : AMPS F) (x : list F) :
  (0 <= scalar_resolution s)%Z ->
  length x = 2 * (Z.to_nat (scalar_resolution s) * Z.to_nat (scalar_resolution s)) ->
  map_pair s (north_south s x).
Proof.
  intros H L. unfold map_pair, north_south.
  erewrite split2_double by exact L. cbn [bind].
  rewrite !reshape_defined; try exact H.
  - cbn [bind]. eexists _, _. split; [reflexivity|].
    split; apply chunks_shape.
    + rewrite length_firstn. lia.
    + rewrite length_skipn. lia.
  - rewrite length_skipn. lia.
  - rewrite length_firstn. lia.
Qed.

Lemma north_south_map (f : F -> F) (s : AMPS F) (x : list F) :
  north_south s (map f x)
  = option_map (fun ab => (mmap f (fst ab), mmap f (snd ab))) (north_south s x).
Proof.
  assert (C : forall r c y, chunks r c (map f y) = mmap f (chunks r c y)).
  { induction r as [|r IH]; intros c y; simpl; [reflexivity|].
    rewrite firstn_map, skipn_map, IH. reflexivity. }
  unfold north_south, split2, reshape. rewrite length_map.
  destruct (Nat.even (length x)); [|reflexivity]. cbn [bind].
  rewrite firstn_map, skipn_map.
  destruct (_ || _)%bool; [reflexivity|].
  rewrite !length_map.
  destruct (Nat.eqb _ _); [|reflexivity]. cbn [bind].
  destruct (Nat.eqb _ _); [|reflexivity]. cbn [bind option_map fst snd].
  rewrite !C. reflexivity.
Qed.

(** X8. The curl-free current potential is the toroidal scalar multiplied,
    value by value, by -(REFRE + height)/MU0 and then by 1e-9; it is
    defined exactly when the toroidal scalar is. *)
Theorem potential_is_scaled_toroidal_scalar (s : AMPS F) :
  get_curl_free_current_potential s
  = option_map
      (fun T =>
         let f := fun x => fmul (fmul (fdiv (fneg (fadd REFRE (height s))) MU0) x)
                                (lit (1 # 1000000000)) in
         (mmap f (fst T), mmap f (snd T)))
      (get_toroidal_scalar s).
Proof.
  unfold get_curl_free_current_potential, get_toroidal_scalar.
  rewrite !option_map_bind. apply bind_ext; intros d1.
  rewrite !option_map_bind. apply bind_ext; intros d2.
  rewrite !option_map_bind. apply bind_ext; intros sm.
  apply north_south_map.
Qed.

Lemma dot_AB_shape (A B : list (list F)) (c : list F) (p k : nat) :
  has_shape A p k -> has_shape B p k -> length c = k ->
  exists d, dot_AB A B c = Some d /\ length d = p.
Proof.
  intros HA HB Hc. unfold dot_AB.
  destruct (mop_shape fmul HA HB) as [Y [E HY]].
  rewrite E; cbn [bind]. eapply dot_shape; eassumption.
Qed.

Lemma mmap_shape (f : F -> F) (A : list (list F)) (p k : nat) :
  has_shape A p k -> has_shape (mmap f A) p k.
Proof.
  intros [L H]. split; [rewrite mmap_length; exact L|].
  unfold mmap. rewrite Forall_forall in *. intros row Hin.
  rewrite in_map_iff in Hin. destruct Hin as [r [<- Hr]].
  rewrite length_map. auto.
Qed.

Lemma get_upward_current_north_south (s : AMPS F) :
  get_upward_current s =
  (let c := fdiv (fneg (lit (1 # 1000000))) (fmul MU0 (fadd REFRE (height s))) in
   let nn := map (fun n => of_Z (n * (n + 1))) (n_T s) in
   d1 <- dot_rAB nn (tor_P_scalar s) (tor_cosmphi_scalar s) (tor_c s) ;;
   d2 <- dot_rAB nn (tor_P_scalar s) (tor_sinmphi_scalar s) (tor_s s) ;;
   sm <- vop fadd d1 d2 ;;
   north_south s (map (fun x => fmul c x) sm)).
Proof. reflexivity. Qed.

(** X9. On a state with a valid cache, each of the six scalar evaluators
    that returns, returns two maps with scalar_resolution rows and columns,
    and it can only return when the scalar grid has exactly
    2 * scalar_resolution^2 points. *)
Theorem scalar_maps_shape (s : AMPS F) (a b : list (list F)) :
  cache_valid s ->
  get_toroidal_scalar s = Some (a, b) \/
  get_poloidal_scalar s = Some (a, b) \/
  get_equivalent_current_function s = Some (a, b) \/
  get_equivalent_current_laplacian s = Some (a, b) \/
  get_upward_current s = Some (a, b) \/
  get_curl_free_current_potential s = Some (a, b) ->
  has_shape a (Z.to_nat (scalar_resolution s)) (Z.to_nat (scalar_resolution s)) /\
  has_shape b (Z.to_nat (scalar_resolution s)) (Z.to_nat (scalar_resolution s)) /\
  length (snd (scalargrid s))
    = 2 * (Z.to_nat (scalar_resolution s) * Z.to_nat (scalar_resolution s)).
Proof.
  intros Hv H.
  destruct (cache_valid_fields Hv) as [(_ & C2 & _ & _ & _ & C6 & _) _].
  assert (LP : length (pol_cosmphi_scalar s) = length (snd (scalargrid s)))
    by (rewrite C2; apply azimuth_cached_length).
  assert (LT : length (tor_cosmphi_scalar s) = length (snd (scalargrid s)))
    by (rewrite C6; apply azimuth_cached_length).
  rewrite get_upward_current_north_south in H.
  unfold get_toroidal_scalar, get_poloidal_scalar,
    get_equivalent_current_function, get_equivalent_current_laplacian,
    get_curl_free_current_potential in H.
  cbv zeta in H.
  destruct H as [H | [H | [H | [H | [H | H]]]]]; inv_bind H;
    apply north_south_length in H; destruct H as (Sa & Sb & L);
    (split; [exact Sa|]); (split; [exact Sb|]);
    rewrite ?length_map in L; apply vop_length in E1; destruct E1 as [E1 _];
    first [apply dot_AB_length in E | apply dot_rAB_length in E]; lia.
Qed.

(** The shapes of the scalar-grid cache of a constructed object whose
    collaborators keep their contracts. *)
Lemma init_scalar_shapes
      (v By Bz tilt F107 minlat maxlat height dr : F) (M0 resolution : Z)
      (s : AMPS F) :
  model_contract -> legendre_contract ->
  __init__ v By Bz tilt F107 minlat maxlat height dr M0 resolution = Some s ->
  let L := 2 * (Z.to_nat (scalar_resolution s) * Z.to_nat (scalar_resolution s)) in
  (0 <= scalar_resolution s)%Z /\
  (has_shape (tor_P_scalar s) L (length (keys_T s)) /\
   has_shape (tor_cosmphi_scalar s) L (length (keys_T s)) /\
   has_shape (tor_sinmphi_scalar s) L (length (keys_T s)) /\
   length (tor_c s) = length (keys_T s) /\
   length (tor_s s) = length (keys_T s) /\
   length (n_T s) = length (keys_T s)) /\
  (has_shape (pol_P_scalar s) L (length (keys_P s)) /\
   has_shape (pol_cosmphi_scalar s) L (length (keys_P s)) /\
   has_shape (pol_sinmphi_scalar s) L (length (keys_P s)) /\
   length (pol_c s) = length (keys_P s) /\
   length (pol_s s) = length (keys_P s) /\
   length (n_P s) = length (keys_P s)).
Proof.
  intros Hm Hl Hi L.
  pose proof (init_cache_valid _ _ _ _ _ _ _ _ _ _ _ Hi) as Hv.
  destruct (init_fields _ _ _ _ _ _ _ _ _ _ _ Hi)
    as (Hc & _ & _ & [NeP NeT] & (HmP & HmT & HnP & HnT) & _ & _ & Hg & Hr).
  specialize (Hm v By Bz tilt F107). rewrite <- Hc in Hm.
  destruct Hm as (Ltc & Lts & Lpc & Lps).
  assert (R0 : (0 <= resolution)%Z).
  { destruct (Z.ltb_spec resolution 0) as [Hn|]; [|assumption].
    unfold _get_scalargrid, linspace in Hg.
    destruct (Z.ltb_spec resolution 0); [discriminate | lia]. }
  destruct (scalargrid_length minlat maxlat R0) as [g [Eg [L1 L2]]].
  rewrite Hg in Eg. injection Eg as <-.
  rewrite <- Hr in L1, L2, R0. fold L in L1, L2.
  destruct (cache_valid_fields Hv)
    as [(_ & C2 & _ & C4 & _ & C6 & _ & C8 & _) [(_ & P2 & _ & P4) _]].
  cbv zeta in P2, P4.
  assert (SL : forall k col,
             fst (get_legendre (N s) (M s) (colat (fst (scalargrid s)))) k
               = Some col -> length col = L).
  { intros k col Hk. rewrite (Hl _ _ _ k col (or_introl Hk)).
    unfold colat. rewrite length_map. exact L1. }
  assert (AZ : forall f m, has_shape (azimuth_cached f m (snd (scalargrid s)))
                                     L (length m)).
  { intros f m. rewrite <- L2. apply azimuth_cached_shape. }
  split; [exact R0|]. split.
  - split; [eapply stack_keys_shape; [exact SL | exact NeT | exact P4]|].
    assert (Lm : length (m_T s) = length (keys_T s))
      by (rewrite HmT; apply length_map).
    rewrite C6, C8, <- Lm.
    repeat split; try apply AZ; try congruence.
    rewrite HnT, HmT, !length_map. reflexivity.
  - split; [eapply stack_keys_shape; [exact SL | exact NeP | exact P2]|].
    assert (Lm : length (m_P s) = length (keys_P s))
      by (rewrite HmP; apply length_map).
    rewrite C2, C4, <- Lm.
    repeat split; try apply AZ; try congruence.
    rewrite HnP, HmP, !length_map. reflexivity.
Qed.

Lemma sum_of_products_defined (s : AMPS F) (d1 d2 : option (list F))
      (g : list F -> list F) (L : nat) :
  (forall x, length (g x) = length x) ->
  (0 <= scalar_resolution s)%Z ->
  L = 2 * (Z.to_nat (scalar_resolution s) * Z.to_nat (scalar_resolution s)) ->
  (exists x, d1 = Some x /\ length x = L) ->
  (exists y, d2 = Some y /\ length y = L) ->
  map_pair s (a <- d1 ;; b <- d2 ;; sm <- vop fadd a b ;; north_south s (g sm)).
Proof.
  intros Hg R0 HL [x [-> Lx]] [y [-> Ly]]. cbn [bind].
  destruct (vop_defined fadd x y) as [sm [E Ls]]; [congruence|].
  rewrite E. cbn [bind].
  apply north_south_defined; [exact R0|].
  rewrite Hg. congruence.
Qed.


End MapFacts.

(** ** The integrated current and the electrojet indices at the edges *)

Section EdgeFacts.

Context {F : Type} {num : Numeric F} {ext : Collaborators F}.

(** X11. [get_integrated_upward_current] fails on every object whose
    scalar resolution is below 2: the cell widths are read from rows 0 and
    1 of the reshaped grid, and row 1 does not exist. *)
Theorem integrated_current_needs_two_rows (s : AMPS F) :
  (scalar_resolution s < 2)%Z -> get_integrated_upward_current s = None.
Proof.
  intros H. unfold get_integrated_upward_current, cell_currents.
  destruct (get_upward_current s) as [[jun jus]|]; [|reflexivity]. cbn [bind].
  destruct (split2 (fst (scalargrid s))) as [[mlat0 ?]|]; [|reflexivity].
  cbn [bind].
  destruct (split2 (snd (scalargrid s))) as [[mlt0 ?]|]; [|reflexivity].
  cbn [bind].
  destruct (reshape mlat0 _ _) as [mlat|]; [|reflexivity]. cbn [bind].
  destruct (reshape mlt0 _ _) as [mlt|] eqn:E; [|reflexivity]. cbn [bind].
  apply reshape_spec in E. destruct E as ([L _] & _).
  assert (N1 : nth_error mlt 1 = None) by (apply nth_error_None; lia).
  rewrite N1. reflexivity.
Qed.

(** X12. [get_AE_indices] fails on an object whose scalar grid has no
    points (resolution 0): the minimum of an empty array is not defined. *)
Theorem AE_indices_fail_on_empty_grid (s : AMPS F) :
  cache_valid s -> snd (scalargrid s) = [] -> get_AE_indices s = None.
Proof.
  intros Hv He.
  destruct (cache_valid_fields Hv) as [(_ & C2 & _ & C4 & _) _].
  rewrite He in C2, C4. cbn in C2, C4.
  unfold get_AE_indices. rewrite C2, C4.
  destruct (row_op_l fmul _ _) as [[|g G]|]; reflexivity.
Qed.

End EdgeFacts.

Section PartitionFacts.

Context {F : Type} {num : Numeric F} {ext : Collaborators F}.
Hypothesis laws : ExactLaws.
Hypothesis signs : SignLaws.

Add Ring exact_sums : (exact_ring laws).

Lemma fold_fadd_acc (l : list F) (a : F) :
  fold_left fadd l a = fadd a (fold_left fadd l (of_Z 0)).
Proof.
  revert a; induction l as [|x l IH]; intros a; simpl; [ring|].
  rewrite (IH (fadd a x)), (IH (fadd (of_Z 0) x)). ring.
Qed.

Lemma asum_cons (x : F) (l : list F) : asum (x :: l) = fadd x (asum l).
Proof.
  unfold asum; simpl. rewrite fold_fadd_acc. ring.
Qed.

Lemma asum_sign_partition (l : list F) :
  fadd (asum (filter (fun a => flt (of_Z 0) a) l))
       (asum (filter (fun a => flt a (of_Z 0)) l))
  = asum l.
Proof.
  induction l as [|x l IH]; simpl.
  - unfold asum; simpl; ring.
  - rewrite (asum_cons x l), <- IH.
    destruct (flt (of_Z 0) x) eqn:P.
    + rewrite (sign_asym signs x P), asum_cons. ring.
    + destruct (flt x (of_Z 0)) eqn:Q.
      * rewrite asum_cons. ring.
      * rewrite (sign_zero signs x P Q). ring.
Qed.


End PartitionFacts.

(** ** The sizes of the vector results *)

Section VectorFacts.

Context {F : Type} {num : Numeric F} {ext : Collaborators F}.

Lemma ground_perturbation_lengths (s : AMPS F) (mlat mlt e n : list F) :
  get_ground_perturbation s mlat mlt = Some (e, n) ->
  length e = length mlt /\ length n = length mlt.
Proof.
  unfold get_ground_perturbation.
  destruct (get_legendre _ _ _) as [tP tdP].
  intros H; inv_bind H. injection H as <- <-.
  apply dot_length in E11, E12.
  apply zipM_length in E4, E10.
  apply mop_length in E2, E8.
  rewrite azimuth_custom_length in E2, E8. lia.
Qed.


Lemma row_op_r_shape (f : F -> F -> F) (r : list F) (A : list (list F))
      (p k : nat) :
  has_shape A p k -> length r = k ->
  exists C, row_op_r f A r = Some C /\ has_shape C p k.
Proof.
  intros [Hp Hk] Hr. unfold row_op_r.
  destruct (mapM_defined (fun row => length row = k)
                         (fun row => vop f row r) A) as [C [E [L HC]]].
  - intros row Hin.
    rewrite Forall_forall in Hk. specialize (Hk row Hin).
    destruct (vop_defined f row r) as [w [E L]]; [congruence|].
    exists w; split; [exact E | congruence].
  - exists C; split; [exact E|]. split; [congruence | exact HC].
Qed.

Lemma dot_AmB_shape (A B : list (list F)) (m c : list F) (p k : nat) :
  has_shape A p k -> has_shape B p k -> length m = k -> length c = k ->
  exists d, dot_AmB A m B c = Some d /\ length d = p.
Proof.
  intros HA HB Hm Hc. unfold dot_AmB.
  destruct (row_op_r_shape fmul m HA Hm) as [X [E HX]].
  destruct (mop_shape fmul HX HB) as [Y [E' HY]].
  rewrite E; cbn [bind]. rewrite E'; cbn [bind].
  eapply dot_shape; eassumption.
Qed.

Lemma dot_rAmB_shape (r : list F) (A B : list (list F)) (m c : list F)
      (p k : nat) :
  has_shape A p k -> has_shape B p k ->
  length r = k -> length m = k -> length c = k ->
  exists d, dot_rAmB r A m B c = Some d /\ length d = p.
Proof.
  intros HA HB Hr Hm Hc. unfold dot_rAmB.
  destruct (row_op_l_shape fmul r HA Hr) as [X [E HX]].
  destruct (row_op_r_shape fmul m HX Hm) as [X' [E1 HX']].
  destruct (mop_shape fmul HX' HB) as [Y [E' HY]].
  rewrite E; cbn [bind]. rewrite E1; cbn [bind]. rewrite E'; cbn [bind].
  eapply dot_shape; eassumption.
Qed.

(** The shapes of the vector-grid cache of a constructed object whose
    collaborators keep their contracts. *)
Lemma init_vector_shapes
      (v By Bz tilt F107 minlat maxlat height dr : F) (M0 resolution : Z)
      (s : AMPS F) :
  model_contract -> legendre_contract ->
  __init__ v By Bz tilt F107 minlat maxlat height dr M0 resolution = Some s ->
  let L := length (snd (vectorgrid s)) in
  (length (fst (vectorgrid s)) = L /\ length (coslambda_vector s) = L) /\
  (has_shape (tor_P_vector s) L (length (keys_T s)) /\
   has_shape (tor_dP_vector s) L (length (keys_T s)) /\
   has_shape (tor_cosmphi_vector s) L (length (keys_T s)) /\
   has_shape (tor_sinmphi_vector s) L (length (keys_T s)) /\
   length (tor_c s) = length (keys_T s) /\
   length (tor_s s) = length (keys_T s) /\
   length (m_T s) = length (keys_T s)) /\
  (has_shape (pol_P_vector s) L (length (keys_P s)) /\
   has_shape (pol_dP_vector s) L (length (keys_P s)) /\
   has_shape (pol_cosmphi_vector s) L (length (keys_P s)) /\
   has_shape (pol_sinmphi_vector s) L (length (keys_P s)) /\
   length (pol_c s) = length (keys_P s) /\
   length (pol_s s) = length (keys_P s) /\
   length (m_P s) = length (keys_P s) /\
   length (n_P s) = length (keys_P s)).
Proof.
  intros Hm Hl Hi L.
  pose proof (init_cache_valid _ _ _ _ _ _ _ _ _ _ _ Hi) as Hv.
  destruct (init_fields _ _ _ _ _ _ _ _ _ _ _ Hi)
    as (Hc & _ & _ & [NeP NeT] & (HmP & HmT & HnP & HnT) & _ & Hg & _ & _).
  specialize (Hm v By Bz tilt F107). rewrite <- Hc in Hm.
  destruct Hm as (Ltc & Lts & Lpc & Lps).
  destruct (vectorgrid_mirrored _ _ _ _ Hg) as [k (L1 & L2 & _)].
  assert (L0 : length (fst (vectorgrid s)) = L) by (unfold L; lia).
  destruct (cache_valid_fields Hv)
    as [(C1 & _ & C3 & _ & C5 & _ & C7 & _ & C9) [(P1 & _ & P3 & _) D]].
  destruct D as (d1 & _ & d3 & _ & [D1 D1'] & _ & [D3 D3'] & _).
  cbv zeta in P1, P3, D1, D3.
  assert (SL : forall k col,
             fst (get_legendre (N s) (M s) (colat (fst (vectorgrid s)))) k
               = Some col -> length col = L).
  { intros k0 col Hk. rewrite (Hl _ _ _ k0 col (or_introl Hk)).
    unfold colat. rewrite length_map. exact L0. }
  assert (SD : forall k col,
             snd (get_legendre (N s) (M s) (colat (fst (vectorgrid s)))) k
               = Some col -> length col = L).
  { intros k0 col Hk. rewrite (Hl _ _ _ k0 col (or_intror Hk)).
    unfold colat. rewrite length_map. exact L0. }
  assert (AZ : forall f m, has_shape (azimuth_cached f m (snd (vectorgrid s)))
                                     L (length m)).
  { intros f m. apply azimuth_cached_shape. }
  split.
  - split; [exact L0|]. rewrite C9. unfold coslambda. rewrite length_map.
    exact L0.
  - split.
    + assert (Lm : length (m_T s) = length (keys_T s))
        by (rewrite HmT; apply length_map).
      split; [eapply stack_keys_shape; [exact SL | exact NeT | exact P3]|].
      split; [rewrite D3'; apply mmap_shape;
              eapply stack_keys_shape; [exact SD | exact NeT | exact D3]|].
      rewrite C5, C7, <- Lm. repeat split; try apply AZ; congruence.
    + assert (Lm : length (m_P s) = length (keys_P s))
        by (rewrite HmP; apply length_map).
      split; [eapply stack_keys_shape; [exact SL | exact NeP | exact P1]|].
      split; [rewrite D1'; apply mmap_shape;
              eapply stack_keys_shape; [exact SD | exact NeP | exact D1]|].
      rewrite C1, C3, <- Lm. repeat split; try apply AZ; try congruence.
      rewrite HnP, HmP, !length_map. reflexivity.
Qed.

Lemma divergence_free_defined
      (v By Bz tilt F107 minlat maxlat height dr : F) (M0 resolution : Z)
      (s : AMPS F) :
  model_contract -> legendre_contract ->
  __init__ v By Bz tilt F107 minlat maxlat height dr M0 resolution = Some s ->
  exists e n, get_divergence_free_current s None None = Some (e, n).
Proof.
  intros Hm Hl Hi.
  destruct (init_vector_shapes _ _ _ _ _ _ _ _ _ _ _ Hm Hl Hi)
    as ([L0 LC] & _ & (PP & PD & PC & PS & Lpc & Lps & LmP & LnP)).
  assert (Lr : length (rtor_df s) = length (keys_P s))
    by (unfold rtor_df; rewrite length_map; exact LnP).
  assert (Lz : length (map of_Z (m_P s)) = length (keys_P s))
    by (rewrite length_map; exact LmP).
  unfold get_divergence_free_current.
  edestruct dot_rAB_shape as [e1 [E1 Le1]];
    [exact PD | exact PC | exact Lr | exact Lpc |].
  edestruct dot_rAB_shape as [e2 [E2 Le2]];
    [exact PD | exact PS | exact Lr | exact Lps |].
  edestruct dot_rAmB_shape as [n1 [E3 Ln1]];
    [exact PP | exact PC | exact Lr | exact Lz | exact Lps |].
  edestruct dot_rAmB_shape as [n2 [E4 Ln2]];
    [exact PP | exact PS | exact Lr | exact Lz | exact Lpc |].
  rewrite E1; cbn [bind]. rewrite E2; cbn [bind].
  destruct (vop_defined fadd e1 e2) as [east [E5 _]]; [congruence|].
  rewrite E5; cbn [bind]. rewrite E3; cbn [bind]. rewrite E4; cbn [bind].
  destruct (vop_defined fsub n1 n2) as [n [E6 Ln]]; [congruence|].
  rewrite E6; cbn [bind].
  destruct (vop_defined fdiv (map fneg n) (coslambda_vector s))
    as [north [E7 _]]; [rewrite length_map; congruence|].
  rewrite E7; cbn [bind]. eexists _, _. reflexivity.
Qed.

Lemma curl_free_defined
      (v By Bz tilt F107 minlat maxlat height dr : F) (M0 resolution : Z)
      (s : AMPS F) :
  model_contract -> legendre_contract ->
  __init__ v By Bz tilt F107 minlat maxlat height dr M0 resolution = Some s ->
  exists e n, get_curl_free_current s None None = Some (e, n).
Proof.
  intros Hm Hl Hi.
  destruct (init_vector_shapes _ _ _ _ _ _ _ _ _ _ _ Hm Hl Hi)
    as ([L0 LC] & (TP & TD & TC & TS & Ltc & Lts & LmT) & _).
  assert (Lz : length (map of_Z (m_T s)) = length (keys_T s))
    by (rewrite length_map; exact LmT).
  unfold get_curl_free_current.
  edestruct dot_AmB_shape as [e1 [E1 Le1]];
    [exact TP | exact TC | exact Lz | exact Lts |].
  edestruct dot_AmB_shape as [e2 [E2 Le2]];
    [exact TP | exact TS | exact Lz | exact Ltc |].
  edestruct dot_AB_shape as [n1 [E3 Ln1]]; [exact TD | exact TC | exact Ltc |].
  edestruct dot_AB_shape as [n2 [E4 Ln2]]; [exact TD | exact TS | exact Lts |].
  rewrite E1; cbn [bind]. rewrite E2; cbn [bind].
  destruct (vop_defined fsub e1 e2) as [e [E5 Le]]; [congruence|].
  rewrite E5; cbn [bind].
  destruct (vop_defined fdiv (map (fun x => fmul rtor_cf x) e)
                        (coslambda_vector s))
    as [east [E6 _]]; [rewrite length_map; congruence|].
  rewrite E6; cbn [bind]. rewrite E3; cbn [bind]. rewrite E4; cbn [bind].
  destruct (vop_defined fadd n1 n2) as [n [E7 _]]; [congruence|].
  rewrite E7; cbn [bind]. eexists _, _. reflexivity.
Qed.


End VectorFacts.

(** ** Where the aggregators are defined *)

Section AggregatorFacts.

Context {F : Type} {num : Numeric F} {ext : Collaborators F}.

Lemma hstack_shape (A B : list (list F)) (p k k' : nat) :
  has_shape A p k -> has_shape B p k' ->
  exists C, hstack A B = Some C /\ has_shape C p (k + k').
Proof.
  unfold has_shape, hstack. revert B p.
  induction A as [|a A IH]; intros [|b B] p [Lp Hk] [Lp' Hk']; simpl in *;
    try congruence.
  - exists []; repeat split; auto.
  - inversion Hk as [|? ? Ha HA]; inversion Hk' as [|? ? Hb HB]; subst.
    destruct (IH B (length A)) as [C [E' [LC HC]]]; [auto | split; [lia|auto] |].
    rewrite E'; simpl. exists ((a ++ b) :: C); repeat split; simpl; auto.
    constructor; [rewrite length_app; reflexivity | exact HC].
Qed.

Lemma amin_defined (x : list F) : x <> [] -> exists m, amin x = Some m.
Proof. destruct x; [congruence | eexists; reflexivity]. Qed.

Lemma amax_defined (x : list F) : x <> [] -> exists m, amax x = Some m.
Proof. destruct x; [congruence | eexists; reflexivity]. Qed.

Lemma nonempty_length (x : list F) : 0 < length x -> x <> [].
Proof. destruct x; simpl; [lia | discriminate]. Qed.

Lemma init_scalar_dP_shape
      (v By Bz tilt F107 minlat maxlat height dr : F) (M0 resolution : Z)
      (s : AMPS F) :
  model_contract -> legendre_contract ->
  __init__ v By Bz tilt F107 minlat maxlat height dr M0 resolution = Some s ->
  has_shape (pol_dP_scalar s)
            (2 * (Z.to_nat (scalar_resolution s) * Z.to_nat (scalar_resolution s)))
            (length (keys_P s)) /\
  length (fst (scalargrid s))
    = 2 * (Z.to_nat (scalar_resolution s) * Z.to_nat (scalar_resolution s)) /\
  length (snd (scalargrid s))
    = 2 * (Z.to_nat (scalar_resolution s) * Z.to_nat (scalar_resolution s)).
Proof.
  intros Hm Hl Hi.
  pose proof (init_cache_valid _ _ _ _ _ _ _ _ _ _ _ Hi) as Hv.
  destruct (init_scalar_shapes _ _ _ _ _ _ _ _ _ _ _ Hm Hl Hi)
    as (R0 & _ & (_ & PC & _)).
  destruct (init_fields _ _ _ _ _ _ _ _ _ _ _ Hi)
    as (_ & _ & _ & [NeP _] & _ & _ & _ & Hg & Hr).
  rewrite <- Hr in Hg.
  destruct (scalargrid_length minlat maxlat R0) as [g [Eg [L1 L2]]].
  rewrite Hg in Eg. injection Eg as <-.
  split; [|split; assumption].
  destruct (cache_valid_fields Hv) as [_ [_ (_ & d2 & _ & _ & _ & [D2 D2'] & _)]].
  cbv zeta in D2. rewrite D2'. apply mmap_shape.
  eapply stack_keys_shape; [|exact NeP|exact D2].
  intros k col Hk. rewrite (Hl _ _ _ k col (or_intror Hk)).
  unfold colat. rewrite length_map. exact L1.
Qed.


Lemma chunks_rows (r c i : nat) (x : list F) (row : list F) :
  length x = r * c -> nth_error (chunks r c x) i = Some row -> length row = c.
Proof.
  intros L H. destruct (chunks_shape r c x L) as [_ HF].
  rewrite Forall_forall in HF. apply HF. eapply nth_error_In; exact H.
Qed.

Lemma nth_error_defined {A : Type} (l : list A) (i : nat) :
  i < length l -> exists a, nth_error l i = Some a.
Proof.
  intros H. destruct (nth_error l i) eqn:E; [eauto|].
  apply nth_error_None in E. lia.
Qed.

Lemma column_defined (A : list (list F)) (p k i : nat) :
  has_shape A p k -> i < k ->
  exists c, mapM (fun row => nth_error row i) A = Some c /\ length c = p.
Proof.
  intros [Lp Hk] Hi.
  destruct (mapM_defined (fun _ : F => True) (fun row => nth_error row i) A)
    as [c [E [L _]]].
  - intros row Hin. rewrite Forall_forall in Hk. specialize (Hk row Hin).
    destruct (nth_error_defined row (i := i)) as [a Ea]; [lia|].
    exists a; split; [exact Ea | exact I].
  - exists c; split; [exact E | congruence].
Qed.


End AggregatorFacts.

(** ** Missing Legendre keys *)

Section MissingKeyFacts.

Context {F : Type} {num : Numeric F} {ext : Collaborators F}.

Lemma mapM_missing {A B : Type} (f : A -> option B) (l : list A) (a : A) :
  In a l -> f a = None -> mapM f l = None.
Proof.
  induction l as [|x l IH]; simpl; intros Hin Hf; [contradiction|].
  destruct Hin as [-> | Hin].
  - rewrite Hf. reflexivity.
  - rewrite (IH Hin Hf). destruct (f x); reflexivity.
Qed.

Lemma stack_keys_missing (table : key -> option (list F)) (keys : list key)
      (k : key) :
  In k keys -> table k = None -> stack_keys table keys = None.
Proof.
  intros Hin Hk. unfold stack_keys.
  rewrite (mapM_missing table keys k Hin Hk). reflexivity.
Qed.

(** X19. Construction fails when a poloidal or toroidal key is absent from
    the Legendre value table requested with the N and M computed on line
    180, that is from the toroidal keys alone; in particular a poloidal key
    above the toroidal truncation makes construction raise. *)
Theorem init_fails_on_missing_key
        (v By Bz tilt F107 minlat maxlat height dr : F) (M0 resolution : Z)
        (k : key) :
  (let '(_, _, _, _, pk, tk) := get_model_vectors v By Bz tilt F107 in
   (In k pk \/ In k tk) /\
   forall (hN hM : Z) (x : list F),
     highest_degree_order tk tk = Some (hN, hM) ->
     fst (get_legendre hN hM x) k = None) ->
  __init__ v By Bz tilt F107 minlat maxlat height dr M0 resolution = None.
Proof.
  unfold __init__.
  destruct (get_model_vectors v By Bz tilt F107) as [[[[[tc ts] pc] ps] pk] tk].
  intros [Hin Hk].
  destruct (negb _); [reflexivity|].
  destruct (key_row snd pk); [|reflexivity]. cbn [bind].
  destruct (key_row snd tk); [|reflexivity]. cbn [bind].
  destruct (key_row fst pk); [|reflexivity]. cbn [bind].
  destruct (key_row fst tk); [|reflexivity]. cbn [bind].
  destruct (highest_degree_order tk tk) as [[hN hM]|]; [|reflexivity].
  cbn [bind].
  destruct (_get_vectorgrid _ _ _ _) as [vg|]; [|reflexivity]. cbn [bind].
  destruct (_get_scalargrid _ _ _) as [sg|]; [|reflexivity]. cbn [bind].
  unfold calculate_matrices. fields.
  specialize (Hk hN hM (colat (fst vg)) eq_refl).
  destruct (get_legendre hN hM (colat (fst vg))) as [vP vdP].
  destruct (get_legendre hN hM (colat (fst sg))) as [sP sdP].
  cbn [fst] in Hk.
  destruct Hin as [Hin | Hin].
  - rewrite (stack_keys_missing vP pk k Hin Hk). reflexivity.
  - rewrite (stack_keys_missing vP tk k Hin Hk).
    destruct (stack_keys vP pk); [|reflexivity]. cbn [bind].
    destruct (stack_keys vdP pk); [|reflexivity]. cbn [bind].
    destruct (stack_keys sP pk); [|reflexivity]. cbn [bind].
    destruct (stack_keys sdP pk); reflexivity.
Qed.

End MissingKeyFacts.

(** ** Further runs on the rational instance *)

Module ExtraRuns.

Import Exact.

Lemma sign_laws : SignLaws (F := Qc).
Proof.
  split; cbn [of_Z flt numeric].
  - intros x H. apply ExactRuns.ltb_iff in H.
    apply not_true_is_false. intros H'. apply ExactRuns.ltb_iff in H'.
    exact (Qlt_irrefl _ (Qlt_trans _ _ _ H H')).
  - intros x H H'. apply Qc_is_canon.
    unfold Qc_ltb in H, H'. apply negb_false_iff in H, H'.
    apply Qle_bool_iff in H, H'. apply Qle_antisym; assumption.
Qed.

Lemma engine_at_1_runs : engine_at 1 <> None.
Proof. vm_compute. discriminate. Defined.

Lemma engine_at_0_runs : engine_at 0 <> None.
Proof. vm_compute. discriminate. Defined.

Lemma toroidal_scalar_runs :
  bind (engine regular 300) (fun s => get_toroidal_scalar s) <> None.
Proof. vm_compute. discriminate. Defined.

Lemma north_south_runs :
  bind (engine regular 300) (fun s => north_south s (snd (scalargrid s)))
  <> None.
Proof. vm_compute. discriminate. Defined.

Lemma cell_currents_run :
  bind (engine regular 300) (fun s => cell_currents s) <> None.
Proof. vm_compute. discriminate. Defined.

Lemma calculate_matrices_idempotent_witness :
  exists s : AMPS Qc,
    engine regular 300 = Some s /\
    calculate_matrices (ext := regular) s = Some s.
Proof.
  destruct (engine regular 300) as [s|] eqn:E;
    [|exact (False_ind _ (ExactRuns.engine_regular_runs E))].
  exists s. split; [reflexivity|].
  pose proof (init_cache_valid (ext := regular) _ _ _ _ _ _ _ _ _ _ _ E) as Hv.
  eapply (calculate_matrices_idempotent (ext := regular)); exact Hv.
Defined.

Lemma cache_valid_after_updates_witness :
  exists s : AMPS Qc,
    engine regular 300 = Some s /\
    cache_valid (ext := regular)
      (update_all (ext := regular) s
         [(z 450, z 2, z (-5), z 0, z 80); (z 350, z 0, z 1, z (-10), z 200)]).
Proof.
  destruct (engine regular 300) as [s|] eqn:E;
    [|exact (False_ind _ (ExactRuns.engine_regular_runs E))].
  exists s. split; [reflexivity|].
  eapply (cache_valid_after_updates (ext := regular)); exact E.
Defined.

Lemma update_model_restores_construction_witness :
  exists s : AMPS Qc,
    engine regular 300 = Some s /\
    update_model (ext := regular)
      (update_all (ext := regular) s
         [(z 450, z 2, z (-5), z 0, z 80); (z 350, z 0, z 1, z (-10), z 200)])
      (z 300) (z (-4)) (z (-3)) (z 20) (z 150) = s.
Proof.
  destruct (engine regular 300) as [s|] eqn:E;
    [|exact (False_ind _ (ExactRuns.engine_regular_runs E))].
  exists s. split; [reflexivity|].
  eapply (update_model_restores_construction (ext := regular)); exact E.
Defined.

Lemma init_fails_without_keys_witness :
  (let '(_, _, _, _, pk, tk) :=
     get_model_vectors (Collaborators := keyless)
                       (z 300) (z (-4)) (z (-3)) (z 20) (z 150) in
   pk = [] \/ tk = []) /\
  engine keyless 300 = None.
Proof.
  assert (H : let '(_, _, _, _, pk, tk) :=
                get_model_vectors (Collaborators := keyless)
                                  (z 300) (z (-4)) (z (-3)) (z 20) (z 150) in
              pk = [] \/ tk = []) by (left; reflexivity).
  split; [exact H|].
  eapply (init_fails_without_keys (ext := keyless)); exact H.
Defined.

Lemma init_checks_poloidal_lengths_witness :
  (let '(_, _, pc, ps, _, _) :=
     get_model_vectors (Collaborators := ragged)
                       (z (-300)) (z (-4)) (z (-3)) (z 20) (z 150) in
   length ps <> length pc) /\
  engine ragged (-300) = None.
Proof.
  assert (H : let '(_, _, pc, ps, _, _) :=
                get_model_vectors (Collaborators := ragged)
                                  (z (-300)) (z (-4)) (z (-3)) (z 20) (z 150) in
              length ps <> length pc) by (vm_compute; discriminate).
  split; [exact H|].
  eapply (init_checks_poloidal_lengths (ext := ragged)); exact H.
Defined.

Lemma N_M_are_toroidal_maxima_witness :
  exists s : AMPS Qc,
    engine regular 300 = Some s /\
    (forall n m : Z, In (n, m) (keys_T s) -> (n <= N s)%Z /\ (m <= M s)%Z) /\
    (exists k : key, In k (keys_T s) /\ fst k = N s) /\
    (exists k : key, In k (keys_T s) /\ snd k = M s).
Proof.
  destruct (engine regular 300) as [s|] eqn:E;
    [|exact (False_ind _ (ExactRuns.engine_regular_runs E))].
  exists s. split; [reflexivity|].
  eapply (N_M_are_toroidal_maxima (ext := regular)); exact E.
Defined.

Lemma vectorgrid_within_band_witness :
  exists g : list Qc * list Qc,
    _get_vectorgrid (ext := regular) (z 2) 4 (z 60) (q (8999 # 100)) = Some g /\
    exists k : nat,
      length (fst g) = 2 * k /\
      forall (i : nat) (d : Qc), i < k ->
        fle (z 60) (nth i (fst g) d) = true /\
        fle (nth i (fst g) d) (q (8999 # 100)) = true.
Proof.
  destruct (_get_vectorgrid (ext := regular) (z 2) 4 (z 60) (q (8999 # 100)))
    as [g|] eqn:E; [|vm_compute in E; discriminate].
  exists g. split; [reflexivity|].
  eapply (vectorgrid_within_band (ext := regular)); exact E.
Defined.

Lemma scalargrid_size_witness :
  (exists g : list Qc * list Qc,
     _get_scalargrid (z 60) (q (8999 # 100)) 4 = Some g /\
     length (fst g) = 32 /\ length (snd g) = 32) /\
  _get_scalargrid (z 60) (q (8999 # 100)) (-1) = None.
Proof.
  split.
  - apply (proj1 (scalargrid_size (z 60) (q (8999 # 100)) 4)). discriminate.
  - apply (proj2 (scalargrid_size (z 60) (q (8999 # 100)) (-1))). reflexivity.
Defined.

Lemma north_south_round_trip_witness :
  exists (s : AMPS Qc) (a b : list (list Qc)),
    engine regular 300 = Some s /\
    north_south s (snd (scalargrid s)) = Some (a, b) /\
    has_shape a 4 4 /\ has_shape b 4 4 /\
    concat a ++ concat b = snd (scalargrid s).
Proof.
  pose proof north_south_runs as R.
  destruct (engine regular 300) as [s|] eqn:E;
    [|exact (False_ind _ (ExactRuns.engine_regular_runs E))].
  cbn [bind] in R.
  destruct (north_south s (snd (scalargrid s))) as [[a b]|] eqn:G;
    [|exact (False_ind _ (R eq_refl))].
  exists s, a, b. split; [reflexivity|]. split; [exact G|].
  destruct (init_fields (ext := regular) _ _ _ _ _ _ _ _ _ _ _ E)
    as (_ & _ & _ & _ & _ & _ & _ & _ & Hr).
  pose proof (north_south_round_trip s _ G) as T.
  rewrite Hr in T. exact T.
Defined.

Lemma scalar_maps_shape_witness :
  exists (s : AMPS Qc) (a b : list (list Qc)),
    engine regular 300 = Some s /\ cache_valid (ext := regular) s /\
    get_toroidal_scalar s = Some (a, b) /\
    has_shape a 4 4 /\ has_shape b 4 4 /\ length (snd (scalargrid s)) = 32.
Proof.
  pose proof toroidal_scalar_runs as R.
  destruct (engine regular 300) as [s|] eqn:E;
    [|exact (False_ind _ (ExactRuns.engine_regular_runs E))].
  cbn [bind] in R.
  destruct (get_toroidal_scalar s) as [[a b]|] eqn:G;
    [|exact (False_ind _ (R eq_refl))].
  pose proof (init_cache_valid (ext := regular) _ _ _ _ _ _ _ _ _ _ _ E) as Hv.
  exists s, a, b. split; [reflexivity|]. split; [exact Hv|].
  split; [exact G|].
  destruct (init_fields (ext := regular) _ _ _ _ _ _ _ _ _ _ _ E)
    as (_ & _ & _ & _ & _ & _ & _ & _ & Hr).
  pose proof (scalar_maps_shape (ext := regular) (a := a) (b := b) Hv
                                (or_introl G)) as T.
  rewrite Hr in T. exact T.
Defined.


Lemma integrated_current_needs_two_rows_witness :
  exists s : AMPS Qc,
    engine_at 1 = Some s /\ (scalar_resolution s < 2)%Z /\
    get_integrated_upward_current s = None.
Proof.
  destruct (engine_at 1) as [s|] eqn:E;
    [|exact (False_ind _ (engine_at_1_runs E))].
  destruct (init_fields (ext := regular) _ _ _ _ _ _ _ _ _ _ _ E)
    as (_ & _ & _ & _ & _ & _ & _ & _ & Hr).
  assert (H : (scalar_resolution s < 2)%Z) by (rewrite Hr; reflexivity).
  exists s. split; [reflexivity|]. split; [exact H|].
  eapply integrated_current_needs_two_rows; exact H.
Defined.

Lemma AE_indices_fail_on_empty_grid_witness :
  exists s : AMPS Qc,
    engine_at 0 = Some s /\ cache_valid (ext := regular) s /\
    snd (scalargrid s) = [] /\ get_AE_indices s = None.
Proof.
  destruct (engine_at 0) as [s|] eqn:E;
    [|exact (False_ind _ (engine_at_0_runs E))].
  pose proof (init_cache_valid (ext := regular) _ _ _ _ _ _ _ _ _ _ _ E) as Hv.
  destruct (init_fields (ext := regular) _ _ _ _ _ _ _ _ _ _ _ E)
    as (_ & _ & _ & _ & _ & _ & _ & Hg & _).
  assert (H : snd (scalargrid s) = []).
  { unfold _get_scalargrid, linspace in Hg. cbn in Hg.
    injection Hg as Hg. rewrite <- Hg. reflexivity. }
  exists s. split; [reflexivity|]. split; [exact Hv|]. split; [exact H|].
  eapply (AE_indices_fail_on_empty_grid (ext := regular)); [exact Hv | exact H].
Defined.






Lemma init_fails_on_missing_key_witness :
  (let '(_, _, _, _, pk, tk) :=
     get_model_vectors (Collaborators := skewed legendre)
                       (z 300) (z (-4)) (z (-3)) (z 20) (z 150) in
   (In (3, 0)%Z pk \/ In (3, 0)%Z tk) /\
   forall (hN hM : Z) (x : list Qc),
     highest_degree_order tk tk = Some (hN, hM) ->
     fst (get_legendre (Collaborators := skewed legendre) hN hM x) (3, 0)%Z
       = None) /\
  engine (skewed legendre) 300 = None.
Proof.
  assert (H : let '(_, _, _, _, pk, tk) :=
                get_model_vectors (Collaborators := skewed legendre)
                                  (z 300) (z (-4)) (z (-3)) (z 20) (z 150) in
              (In (3, 0)%Z pk \/ In (3, 0)%Z tk) /\
              forall (hN hM : Z) (x : list Qc),
                highest_degree_order tk tk = Some (hN, hM) ->
                fst (get_legendre (Collaborators := skewed legendre) hN hM x)
                    (3, 0)%Z = None).
  { cbn [get_model_vectors get_legendre skewed]. split.
    - left. left. reflexivity.
    - intros hN hM x E. vm_compute in E. injection E as <- <-. reflexivity. }
  split; [exact H|].
  eapply (init_fails_on_missing_key (ext := skewed legendre)); exact H.
Defined.

End ExtraRuns.
